(** * GameBuddies Veo ad script: a shallow embedding and its properties

    The development follows [server/scripts/veo_ad_creation/generate_ad.py].
    The script is sequential glue around three kinds of effects: the local
    filesystem (existence checks, reading the avatar files, writing the
    video), the console, and the remote video-generation service.  The
    embedding threads a store through a small exception monad that also
    records every effect as an event, so that statements such as "no API
    call is made" or "nothing but the output path is written" are stated on
    the list of events of a run. *)

From Stdlib Require Import Ascii.
From Stdlib Require Strings.Byte.
From stdpp Require Import base option list gmap strings.

Set Default Proof Using "Type".

(** ** Paths ([os.path], POSIX flavour) *)

Module Path.

Definition sep : ascii := "/"%char.

Fixpoint last_char (s : string) : option ascii :=
  match s with
  | EmptyString => None
  | String c EmptyString => Some c
  | String _ s' => last_char s'
  end.

(** [s.startswith('/')] and [s.endswith('/')]. *)
Definition startswith_sep (s : string) : bool :=
  match s with
  | String c _ => bool_decide (c = sep)
  | EmptyString => false
  end.

Definition endswith_sep (s : string) : bool :=
  bool_decide (last_char s = Some sep).

Definition is_empty (s : string) : bool :=
  match s with EmptyString => true | _ => false end.

(** [os.path.join(a, b)]: an absolute [b] replaces [a]; otherwise the two
    are glued with exactly one separator, unless [a] is empty or already
    ends with one. *)
Definition join (a b : string) : string :=
  if startswith_sep b then b
  else if is_empty a || endswith_sep a then a +:+ b
  else a +:+ String sep b.

Definition isabs (s : string) : bool := startswith_sep s.

(** [s.split('/')]. *)
Fixpoint split (s : string) : list string :=
  match s with
  | EmptyString => [EmptyString]
  | String c s' =>
      if bool_decide (c = sep) then EmptyString :: split s'
      else match split s' with
           | h :: t => String c h :: t
           | [] => [String c EmptyString]
           end
  end.

(** [os.path.basename(p)]: what follows the last separator. *)
Definition basename (p : string) : string := List.last (split p) EmptyString.

(** ['/'.join(comps)]. *)
Fixpoint unsplit (comps : list string) : string :=
  match comps with
  | [] => EmptyString
  | [c] => c
  | c :: rest => c +:+ String sep (unsplit rest)
  end.

(** The number of leading slashes [normpath] keeps: two for exactly two,
    one for one or for three and more, none otherwise. *)
Definition initial_slashes (path : string) : nat :=
  match path with
  | String c1 (String c2 (String c3 _)) =>
      if bool_decide (c1 = sep) then
        if bool_decide (c2 = sep) then
          if bool_decide (c3 = sep) then 1 else 2
        else 1
      else 0
  | String c1 (String c2 EmptyString) =>
      if bool_decide (c1 = sep) then
        if bool_decide (c2 = sep) then 2 else 1
      else 0
  | String c1 EmptyString => if bool_decide (c1 = sep) then 1 else 0
  | EmptyString => 0
  end.

(** One round of the loop of [normpath] over the components; [new_comps]
    is the list built so far, its last element the most recent one. *)
Definition norm_step (slashes : nat) (new_comps : list string)
    (comp : string) : list string :=
  if bool_decide (comp = "") || bool_decide (comp = ".") then new_comps
  else if negb (bool_decide (comp = ".."))
          || (bool_decide (slashes = 0) && bool_decide (new_comps = []))
          || bool_decide (List.last new_comps "" = "..")
               && negb (bool_decide (new_comps = []))
       then new_comps ++ [comp]
       else removelast new_comps.

Fixpoint repeat_sep (n : nat) (s : string) : string :=
  match n with
  | 0 => s
  | S n' => String sep (repeat_sep n' s)
  end.

Definition normpath (path : string) : string :=
  if is_empty path then "."
  else
    let slashes := initial_slashes path in
    let comps := fold_left (norm_step slashes) (split path) [] in
    let path' := repeat_sep slashes (unsplit comps) in
    if is_empty path' then "." else path'.

(** [os.path.abspath(path)], with [cwd] the value of [os.getcwd()]. *)
Definition abspath (cwd path : string) : string :=
  normpath (if isabs path then path else join cwd path).

End Path.

(** ** Data model *)

(** Raw file contents, Python's [bytes]. *)
Abbreviation bytes := (list Byte.byte).

(** A raised exception, with its text ([str(e)]).  The handlers of the
    script are all [except Exception]: they catch an [Exception] and let
    pass what is only a [BaseException] ([KeyboardInterrupt], [SystemExit]).
    A text alone stands for an [Exception]. *)
Inductive exn :=
  | Exception (text : string)
  | BaseException (text : string).
Coercion Exception : string >-> exn.

Definition is_exception (e : exn) : bool :=
  match e with
  | Exception _ => true
  | BaseException _ => false
  end.

(** An attribute of an object that came from the service: its value, which
    may be [None], or, when the object does not have the shape the script
    expects, the text of the [Exception] that reading it raises.  An
    optional value alone stands for an attribute that can be read. *)
Inductive attribute (A : Type) :=
  | Value (v : option A)
  | Unexpected (text : string).
Arguments Value {A} v.
Arguments Unexpected {A} text.
Coercion Value : option >-> attribute.

(** [types.Image(image_bytes=..., mime_type=...)]. *)
Record Image := { image_bytes : bytes; mime_type : string }.

(** [types.VideoGenerationReferenceImage(image=..., reference_type=...)]. *)
Record VideoGenerationReferenceImage :=
  { image : Image; reference_type : string }.

(** [types.GenerateVideosConfig(reference_images=...)]; aspect ratio and
    frame rate are commented out in the script. *)
Record GenerateVideosConfig :=
  { reference_images : list VideoGenerationReferenceImage }.

(** The keyword arguments of [client.models.generate_videos]. *)
Record GenerateVideosRequest :=
  { model : string; prompt : string; config : GenerateVideosConfig }.

(** The remote handle of a video; its bytes are obtained by a download. *)
Record Video := { uri : string }.

Record GeneratedVideo := { video : Video }.

Record GenerateVideosResponse :=
  { generated_videos : option (list GeneratedVideo) }.

(** The job handle: [done], [result] and [error] are the three attributes
    the script reads.  The error is kept as the text that is printed for it;
    as a Python value it is falsy when it is [None] or empty. *)
Record Operation :=
  { name : string;
    done : bool;
    result : attribute GenerateVideosResponse;
    error : option string }.

(** [bool(operation.error)], the test of line 127. *)
Definition truthy (err : string) : bool :=
  match err with
  | EmptyString => false
  | String _ _ => true
  end.

(** What [client.files.download] returns: the script only distinguishes
    [bytes] from any other value, of which it prints the type. *)
Inductive downloaded :=
  | PyBytes (content : bytes)
  | PyOther (type_name : string).

(** A call into the environment returns a value or raises. *)
Inductive reply (A : Type) :=
  | Returns (a : A)
  | Raises (e : exn).
Arguments Returns {A} a.
Arguments Raises {A} e.

(** How [with open(p, "wb") as f: f.write(data)] goes: the file is written;
    or [open] raises an I/O error and the file is as it was; or the file is
    opened, hence truncated, and the write raises an I/O error when only
    the first [written] bytes have reached it. *)
Inductive write_outcome :=
  | Written
  | OpenFailed (text : string)
  | WriteFailed (text : string) (written : nat).

(** The environment of a run: where the script lives, and how reads, writes
    and the three API calls answer.  [read_error p = Some text] makes
    [open(p, "rb")] (or the read that follows) raise the I/O error [text]
    although [p] exists.  [operations_get k op] is the answer to the [k]-th
    status fetch, made with the handle [op]. *)
Record World :=
  { script_dir : string;
    cwd : string;
    read_error : string → option string;
    write_result : string → bytes → write_outcome;
    generate_videos : GenerateVideosRequest → reply Operation;
    operations_get : nat → Operation → reply Operation;
    files_download : Video → reply downloaded }.

(** ** Effects *)

(** The lines the script prints, one constructor per [print] statement. *)
Inductive message :=
  | MStart                                  (* line 11 *)
  | MAvatarNotFound (p : string)            (* line 32 *)
  | MNoAvatars                              (* line 35 *)
  | MFound (n : nat)                        (* line 38 *)
  | MLoading (base : string)                (* line 44 *)
  | MLoadFailed (e : exn)                   (* line 60 *)
  | MSending                                (* line 74 *)
  | MWaiting                                (* line 86 *)
  | MDot                                    (* line 90 *)
  | MComplete                               (* line 92 *)
  | MSaving (p : string)                    (* line 98 *)
  | MVideoObject (v : GeneratedVideo)       (* line 102 *)
  | MVideoVideo (v : Video)                 (* line 103 *)
  | MVideoAttributes (v : Video)            (* line 104 *)
  | MAttemptDownload                        (* line 110 *)
  | MDownloadBytes                          (* line 115 *)
  | MSaved                                  (* line 118 *)
  | MDownloadOther (type_name : string)     (* line 120 *)
  | MSaveFailed (e : exn)                   (* line 124 *)
  | MNoVideo                                (* line 126 *)
  | MError (err : string)                   (* line 128 *)
  | MApiFailed (e : exn).                   (* line 131 *)

(** Everything a run does to the outside, in the order it happens. *)
Inductive event :=
  | EPrint (m : message)
  | EOpenRead (p : string)                  (* open(p, "rb") *)
  | EOpenWrite (p : string) (data : bytes)  (* open(p, "wb") and f.write(data) *)
  | ESleep (seconds : nat)                  (* time.sleep *)
  | EGenerate (req : GenerateVideosRequest) (* client.models.generate_videos *)
  | EGet (op : Operation)                   (* client.operations.get *)
  | EDownload (file : Video).               (* client.files.download *)

Definition is_api_call (ev : event) : bool :=
  match ev with
  | EGenerate _ | EGet _ | EDownload _ => true
  | _ => false
  end.

Definition is_submission (ev : event) : bool :=
  match ev with
  | EGenerate _ => true
  | _ => false
  end.

Definition is_sleep (ev : event) : bool :=
  match ev with
  | ESleep _ => true
  | _ => false
  end.

Definition is_write (ev : event) : bool :=
  match ev with
  | EOpenWrite _ _ => true
  | _ => false
  end.

(** The store: the files that exist with their contents, and how many status
    fetches have been made so far. *)
Record store := { fs : gmap string bytes; polls : nat }.

Definition set_fs (f : gmap string bytes → gmap string bytes) (s : store) : store :=
  {| fs := f (fs s); polls := polls s |}.

Definition incr_polls (s : store) : store :=
  {| fs := fs s; polls := S (polls s) |}.

(** How a computation ends: with a value, with an exception, or still
    running when the bound on loop iterations is used up. *)
Inductive outcome (A : Type) :=
  | Ret (a : A)
  | Exc (e : exn)
  | OutOfFuel.
Arguments Ret {A} a.
Arguments Exc {A} e.
Arguments OutOfFuel {A}.

Record res (A : Type) :=
  { out : outcome A; final : store; events : list event }.
Arguments out {A} r.
Arguments final {A} r.
Arguments events {A} r.

Record M (A : Type) := MkM { run : store → res A }.
Arguments MkM {A} run.
Arguments run {A} m s.

#[global] Instance M_ret : MRet M := λ A a,
  MkM (λ s, {| out := Ret a; final := s; events := [] |}).

#[global] Instance M_bind : MBind M := λ A B k m,
  MkM (λ s,
    let r := run m s in
    match out r with
    | Ret a =>
        let r' := run (k a) (final r) in
        {| out := out r'; final := final r'; events := events r ++ events r' |}
    | Exc e => {| out := Exc e; final := final r; events := events r |}
    | OutOfFuel => {| out := OutOfFuel; final := final r; events := events r |}
    end).

(** [raise e]. *)
Definition raise {A} (e : exn) : M A :=
  MkM (λ s, {| out := Exc e; final := s; events := [] |}).

(** The loop bound is exhausted: the computation is cut off here. *)
Definition out_of_fuel {A} : M A :=
  MkM (λ s, {| out := OutOfFuel; final := s; events := [] |}).

(** [try: body except Exception as e: handler e]: an [Exception] raised
    by the body is handled, anything else it raises goes on. *)
Definition try_except {A} (body : M A) (handler : exn → M A) : M A :=
  MkM (λ s,
    let r := run body s in
    match out r with
    | Exc e =>
        if is_exception e then
          let r' := run (handler e) (final r) in
          {| out := out r'; final := final r'; events := events r ++ events r' |}
        else r
    | _ => r
    end).

Definition emit (ev : event) : M unit :=
  MkM (λ s, {| out := Ret tt; final := s; events := [ev] |}).

Definition print (m : message) : M unit := emit (EPrint m).

Definition get_store : M store :=
  MkM (λ s, {| out := Ret s; final := s; events := [] |}).

Definition modify (f : store → store) : M unit :=
  MkM (λ s, {| out := Ret tt; final := f s; events := [] |}).

(** Turn the answer of the environment into a value or a raised exception. *)
Definition of_reply {A} (r : reply A) : M A :=
  match r with
  | Returns a => mret a
  | Raises e => raise e
  end.

(** [os.path.exists(p)]. *)
Definition path_exists (p : string) : M bool :=
  s ← get_store; mret (bool_decide (is_Some (fs s !! p))).

(** [time.sleep(seconds)]. *)
Definition sleep (seconds : nat) : M unit := emit (ESleep seconds).

(** Reading an attribute of an object that came from the service. *)
Definition read_attribute {A} (a : attribute A) : M (option A) :=
  match a with
  | Value v => mret v
  | Unexpected text => raise (Exception text)
  end.

(** ** The script *)

Section Script.

Variable w : World.

(** Lines 14-16. *)
Definition avatars_dir : string :=
  Path.abspath (cwd w) (Path.join (script_dir w) "../../public/avatars").
Definition premium_dir : string := Path.join avatars_dir "premium".
Definition free_dir : string := Path.join avatars_dir "free".

(** Lines 20-24: the candidate avatars. *)
Definition avatar_files : list string :=
  [ Path.join premium_dir "archer.png";
    Path.join premium_dir "knight.png";
    Path.join premium_dir "mage.png" ].

(** Line 96. *)
Definition output_path : string :=
  Path.abspath (cwd w)
    (Path.join (script_dir w) "../../public/gamebuddies_veo_ad.mp4").

(** Lines 64-72. *)
Definition the_prompt : string :=
  "A cinematic trailer for a multiplayer game called GameBuddies. " +:+
  "Show the provided mascot characters (Archer, Knight, Mage, and Base) " +:+
  "standing together in a vibrant, pixel-art inspired fantasy lobby. " +:+
  "The camera pans slowly across them as they perform idle animations like " +:+
  "waving, checking gear, or casting small magical sparks. " +:+
  "The background is a cheerful, bright game world with floating islands. " +:+
  "The video feels energetic and inviting, highlighting the variety of customizable characters.".

(** What reading [path] gives in store [s]: the bytes of the file, or the
    exception the environment raises for it. *)
Definition read_result (s : store) (path : string) : reply bytes :=
  match read_error w path with
  | Some text => Raises (Exception text)
  | None =>
      match fs s !! path with
      | Some data => Returns data
      | None => Raises "FileNotFoundError"
      end
  end.

(** [with open(path, "rb") as f: image_bytes = f.read()]. *)
Definition read_file (path : string) : M bytes :=
  emit (EOpenRead path);;
  s ← get_store;
  of_reply (read_result s path).

(** [with open(p, "wb") as f: f.write(data)]: when all goes well the file at
    [p] is created or truncated and holds exactly [data] afterwards. *)
Definition write_file (p : string) (data : bytes) : M unit :=
  emit (EOpenWrite p data);;
  match write_result w p data with
  | Written => modify (set_fs (<[p := data]>))
  | OpenFailed text => raise (Exception text)
  | WriteFailed text written =>
      modify (set_fs (<[p := take written data]>));;
      raise (Exception text)
  end.

(** [client.models.generate_videos(model=..., prompt=..., config=...)]. *)
Definition api_generate_videos (req : GenerateVideosRequest) : M Operation :=
  emit (EGenerate req);; of_reply (generate_videos w req).

(** [client.operations.get(operation)]. *)
Definition api_operations_get (operation : Operation) : M Operation :=
  emit (EGet operation);;
  s ← get_store;
  modify incr_polls;;
  of_reply (operations_get w (polls s) operation).

(** [client.files.download(file=...)]. *)
Definition api_files_download (file : Video) : M downloaded :=
  emit (EDownload file);; of_reply (files_download w file).

(** Lines 27-32, the loop over [avatar_files] with the list built so far. *)
Fixpoint locate_avatars (candidates valid_avatars : list string)
    : M (list string) :=
  match candidates with
  | [] => mret valid_avatars
  | p :: candidates' =>
      found ← path_exists p;
      if found : bool then locate_avatars candidates' (valid_avatars ++ [p])
      else print (MAvatarNotFound p);;
           locate_avatars candidates' valid_avatars
  end.

(** Lines 50-58: the reference image made of the bytes of one file. *)
Definition asset_reference (image_bytes : bytes) : VideoGenerationReferenceImage :=
  {| image := {| image_bytes := image_bytes; mime_type := "image/png" |};
     reference_type := "asset" |}.

(** Lines 43-60, the loop over [valid_avatars] with the list built so far;
    the [try] covers the read and the [append], its handler only prints. *)
Fixpoint load_images (paths : list string)
    (reference_images : list VideoGenerationReferenceImage)
    : M (list VideoGenerationReferenceImage) :=
  match paths with
  | [] => mret reference_images
  | path :: paths' =>
      print (MLoading (Path.basename path));;
      reference_images' ←
        try_except
          (image_bytes ← read_file path;
           mret (reference_images ++ [asset_reference image_bytes]))
          (λ e, print (MLoadFailed e);; mret reference_images);
      load_images paths' reference_images'
  end.

(** Lines 76-84. *)
Definition the_request
    (reference_images : list VideoGenerationReferenceImage)
    : GenerateVideosRequest :=
  {| model := "veo-3.1-generate-preview";
     prompt := the_prompt;
     config := {| reference_images := reference_images |} |}.

(** Lines 87-90, [while not operation.done]; [fuel] bounds the number of
    rounds, and the test comes first, as in the source. *)
Fixpoint poll (fuel : nat) (operation : Operation) : M Operation :=
  if done operation then mret operation
  else
    match fuel with
    | 0 => out_of_fuel
    | S fuel' =>
        sleep 10;;
        operation' ← api_operations_get operation;
        print MDot;;
        poll fuel' operation'
    end.

(** The value tested at line 94, [operation.result and
    operation.result.generated_videos], as the list it stands for, once the
    result has been read: empty when the result is [None], or the list is
    [None] or empty. *)
Definition videos_of (response : option GenerateVideosResponse)
    : list GeneratedVideo :=
  match response with
  | Some r => default [] (generated_videos r)
  | None => []
  end.

(** Lines 94-128.  The result is read outside the inner [try]; the error is
    printed when it is truthy. *)
Definition save_result (operation : Operation) : M unit :=
  response ← read_attribute (result operation);
  match videos_of response with
  | video0 :: _ =>
      print (MSaving output_path);;
      try_except
        (print (MVideoObject video0);;
         print (MVideoVideo (video video0));;
         print (MVideoAttributes (video video0));;
         print MAttemptDownload;;
         downloaded_content ← api_files_download (video video0);
         match downloaded_content with
         | PyBytes content =>
             print MDownloadBytes;;
             write_file output_path content;;
             print MSaved
         | PyOther type_name =>
             print (MDownloadOther type_name)
         end)
        (λ save_err, print (MSaveFailed save_err))
  | [] =>
      print MNoVideo;;
      match error operation with
      | Some err => if truthy err then print (MError err) else mret tt
      | None => mret tt
      end
  end.

(** Lines 75-131: submission, polling and saving under the outer handler. *)
Definition submit_poll_save (fuel : nat)
    (reference_images : list VideoGenerationReferenceImage) : M unit :=
  try_except
    (operation ← api_generate_videos (the_request reference_images);
     print MWaiting;;
     operation' ← poll fuel operation;
     print MComplete;;
     save_result operation')
    (λ e, print (MApiFailed e)).

(** Lines 10-131. *)
Definition create_gamebuddies_ad (fuel : nat) : M unit :=
  print MStart;;
  valid_avatars ← locate_avatars avatar_files [];
  match valid_avatars with
  | [] => print MNoAvatars
  | _ :: _ =>
      print (MFound (length valid_avatars));;
      reference_images ← load_images valid_avatars [];
      print MSending;;
      submit_poll_save fuel reference_images
  end.

End Script.

(** [r] with [evs] in front of its events. *)
Definition prepend {A} (evs : list event) (r : res A) : res A :=
  {| out := out r; final := final r; events := evs ++ events r |}.

(** [r] as it leaves [try: ... except Exception as e: print(line e)]: an
    [Exception] ends there, with its line; anything else is as it was. *)
Definition caught (line : exn → message) (r : res unit) : res unit :=
  match out r with
  | Exc e =>
      if is_exception e then
        {| out := Ret tt; final := final r;
           events := events r ++ [EPrint (line e)] |}
      else r
  | _ => r
  end.

(** What is submitted, polled and saved inside the outer [try], before its
    handler: lines 76-128. *)
Definition submit_poll_save_body (w : World) (fuel : nat)
    (reference_images : list VideoGenerationReferenceImage) (s : store)
    : res unit :=
  let req := the_request reference_images in
  match generate_videos w req with
  | Raises e => {| out := Exc e; final := s; events := [EGenerate req] |}
  | Returns operation =>
      let r := run (poll w fuel operation) s in
      match out r with
      | Ret operation' =>
          prepend ([EGenerate req; EPrint MWaiting] ++ events r
                   ++ [EPrint MComplete])
            (run (save_result w operation') (final r))
      | Exc e =>
          {| out := Exc e; final := final r;
             events := [EGenerate req; EPrint MWaiting] ++ events r |}
      | OutOfFuel =>
          {| out := OutOfFuel; final := final r;
             events := [EGenerate req; EPrint MWaiting] ++ events r |}
      end
  end.


(** ** Vocabulary of the statements *)

(** The bytes read from [path] in store [s], if the read succeeds. *)
Definition read_bytes (w : World) (s : store) (path : string) : option bytes :=
  match read_result w s path with
  | Returns data => Some data
  | Raises _ => None
  end.

(** The reference image the loader makes of [path] in store [s], if the
    read succeeds. *)
Definition loaded_image (w : World) (s : store) (path : string)
    : option VideoGenerationReferenceImage :=
  asset_reference <$> read_bytes w s path.

(** What one round of the loader does to the outside for [path]. *)
Definition load_events (w : World) (s : store) (path : string) : list event :=
  [EPrint (MLoading (Path.basename path)); EOpenRead path] ++
  match read_result w s path with
  | Returns _ => []
  | Raises e => [EPrint (MLoadFailed e)]
  end.

(** The store after the attempt to write [content] to the output path. *)
Definition written_store (w : World) (content : bytes) (s : store) : store :=
  match write_result w (output_path w) content with
  | Written => set_fs (<[output_path w := content]>) s
  | OpenFailed _ => s
  | WriteFailed _ written =>
      set_fs (<[output_path w := take written content]>) s
  end.

(** What the result persister does once the download has given bytes:
    lines 115-118, or the handler of line 124 when the write raises. *)
Definition write_events (w : World) (content : bytes) : list event :=
  [ EPrint MDownloadBytes;
    EOpenWrite (output_path w) content;
    match write_result w (output_path w) content with
    | Written => EPrint MSaved
    | OpenFailed text | WriteFailed text _ => EPrint (MSaveFailed text)
    end ].

(** Lines 127-128: the error is printed when it is truthy. *)
Definition error_lines (operation : Operation) : list event :=
  match error operation with
  | Some err => if truthy err then [EPrint (MError err)] else []
  | None => []
  end.

(** What the result persister prints and calls before it looks at what the
    download gave: lines 98-111 for the generated video [video0]. *)
Definition download_events (w : World) (video0 : GeneratedVideo) : list event :=
  [ EPrint (MSaving (output_path w));
    EPrint (MVideoObject video0);
    EPrint (MVideoVideo (video video0));
    EPrint (MVideoAttributes (video video0));
    EPrint MAttemptDownload;
    EDownload (video video0) ].

(** The candidates that exist in store [s], the warnings for the others, and
    everything a run does before the request is sent. *)
Definition existing_avatars (w : World) (s : store) : list string :=
  filter (λ p, is_Some (fs s !! p)) (avatar_files w).

Definition missing_warnings (w : World) (s : store) : list event :=
  (λ p, EPrint (MAvatarNotFound p))
    <$> filter (λ p, ¬ is_Some (fs s !! p)) (avatar_files w).

Definition loaded_references (w : World) (s : store)
    : list VideoGenerationReferenceImage :=
  omap (loaded_image w s) (existing_avatars w s).

Definition startup_events (w : World) (s : store) : list event :=
  EPrint MStart :: missing_warnings w s ++
  [EPrint (MFound (length (existing_avatars w s)))] ++
  (existing_avatars w s ≫= load_events w s) ++
  [EPrint MSending].

(** [path] is [tail], or something followed by a separator and [tail]. *)
Definition ends_with_component (path tail : string) : Prop :=
  path = tail ∨ ∃ front, path = front +:+ String Path.sep tail.

(** A result [r] obtained from store [s] has written to no path but
    [out_path]: every write is to it, and every other path holds what it
    held. *)
Definition frame_ok {A} (out_path : string) (s : store) (r : res A) : Prop :=
  Forall (λ ev, ∀ p data, ev = EOpenWrite p data → p = out_path) (events r)
  ∧ ∀ p, p ≠ out_path → fs (final r) !! p = fs s !! p.

Definition writes_only {A} (out_path : string) (m : M A) : Prop :=
  ∀ s, frame_ok out_path s (run m s).

(** ** Two readings of the specification, as stated

    Both are refuted below on a concrete run; the statements that hold
    instead follow them. *)

(** "The loop never terminates if the flag never becomes true": from an
    operation that is not done, if no status fetch ever returns a completed
    operation, no number of rounds lets [poll] finish. *)
Definition polling_ends_only_on_completion
    (w : World) (operation : Operation) (s : store) : Prop :=
  done operation = false →
  (∀ k operation1 operation2,
      operations_get w k operation1 = Returns operation2 →
      done operation2 = false) →
  ∀ fuel, out (run (poll w fuel operation) s) = OutOfFuel.

(** "Every API failure is caught at the broadest level": whenever the
    submission or the download made in a run raises [e], the run ends with
    the line of the outer handler for [e]. *)
Definition api_failures_reach_outer_handler
    (w : World) (fuel : nat) (s : store) : Prop :=
  let r := run (create_gamebuddies_ad w fuel) s in
  ∀ e,
    (∃ req, EGenerate req ∈ events r ∧ generate_videos w req = Raises e)
    ∨ (∃ file, EDownload file ∈ events r ∧ files_download w file = Raises e) →
    List.last (events r) (EPrint MStart) = EPrint (MApiFailed e).

(** "The downloaded bytes are written to the output path": whenever the
    result of a completed operation holds a video and its download gives
    bytes, the file at the output path holds those bytes after the result
    persister has run. *)
Definition downloaded_bytes_always_written
    (w : World) (s : store) (operation : Operation) : Prop :=
  ∀ response video0 rest content,
    done operation = true →
    result operation = Some response →
    generated_videos response = Some (video0 :: rest) →
    files_download w (video video0) = Returns (PyBytes content) →
    fs (final (run (save_result w operation) s)) !! output_path w
    = Some content.

(** "Any error of the operation that is present is reported": whenever a
    completed operation has no video, the result persister prints its error
    if it has one. *)
Definition present_error_always_reported
    (w : World) (s : store) (operation : Operation) : Prop :=
  done operation = true →
  (result operation = None
   ∨ ∃ response, result operation = Some response
       ∧ (generated_videos response = None
          ∨ generated_videos response = Some [])) →
  ∀ err, error operation = Some err →
    EPrint (MError err) ∈ events (run (save_result w operation) s).

(** ** Concrete runs *)

Definition pending : Operation :=
  {| name := "operations/veo-1"; done := false; result := None; error := None |}.

Definition clip : GeneratedVideo := {| video := {| uri := "files/clip-1" |} |}.

Definition finished : Operation :=
  {| name := "operations/veo-1"; done := true;
     result := Some {| generated_videos := Some [clip] |};
     error := None |}.

Definition rejected : Operation :=
  {| name := "operations/veo-1"; done := true;
     result := Some {| generated_videos := Some [] |};
     error := Some "quota exceeded" |}.

(** Done, without a video, and with an error that is there but empty. *)
Definition hushed : Operation :=
  {| name := "operations/veo-1"; done := true;
     result := None;
     error := Some "" |}.

(** Done, with a result that does not have the expected shape. *)
Definition garbled : Operation :=
  {| name := "operations/veo-1"; done := true;
     result := Unexpected "AttributeError";
     error := None |}.

Definition mp4 : bytes := [Byte.x00; Byte.x00; Byte.x00; Byte.x18].

(** The job completes at the second status fetch and the download gives
    bytes. *)
Definition fair_world : World :=
  {| script_dir := "/srv/gamebuddies/server/scripts/veo_ad_creation";
     cwd := "/srv/gamebuddies";
     read_error := λ _, None;
     write_result := λ _ _, Written;
     generate_videos := λ _, Returns pending;
     operations_get := λ k _, if bool_decide (k = 1) then Returns finished
                              else Returns pending;
     files_download := λ _, Returns (PyBytes mp4) |}.

(** The job never completes. *)
Definition stuck_world : World :=
  {| script_dir := script_dir fair_world; cwd := cwd fair_world;
     read_error := λ _, None;
     write_result := λ _ _, Written;
     generate_videos := λ _, Returns pending;
     operations_get := λ _ _, Returns pending;
     files_download := λ _, Returns (PyBytes mp4) |}.

(** The service is unreachable once the job is submitted. *)
Definition offline_world : World :=
  {| script_dir := script_dir fair_world; cwd := cwd fair_world;
     read_error := λ _, None;
     write_result := λ _ _, Written;
     generate_videos := λ _, Returns pending;
     operations_get := λ _ _, Raises "ConnectionError";
     files_download := λ _, Raises "ConnectionError" |}.

(** The submission is refused. *)
Definition refusing_world : World :=
  {| script_dir := script_dir fair_world; cwd := cwd fair_world;
     read_error := λ _, None;
     write_result := λ _ _, Written;
     generate_videos := λ _, Raises "PermissionDenied";
     operations_get := λ _ _, Returns pending;
     files_download := λ _, Returns (PyBytes mp4) |}.

(** The job is complete at once, and its video cannot be downloaded. *)
Definition broken_download_world : World :=
  {| script_dir := script_dir fair_world; cwd := cwd fair_world;
     read_error := λ _, None;
     write_result := λ _ _, Written;
     generate_videos := λ _, Returns finished;
     operations_get := λ _ _, Returns finished;
     files_download := λ _, Raises "NotFound" |}.

(** The download gives something that is not bytes. *)
Definition odd_download_world : World :=
  {| script_dir := script_dir fair_world; cwd := cwd fair_world;
     read_error := λ _, None;
     write_result := λ _ _, Written;
     generate_videos := λ _, Returns finished;
     operations_get := λ _ _, Returns finished;
     files_download := λ _, Returns (PyOther "<class 'NoneType'>") |}.

(** No avatar can be read. *)
Definition unreadable_world : World :=
  {| script_dir := script_dir fair_world; cwd := cwd fair_world;
     read_error := λ _, Some "PermissionError";
     write_result := λ _ _, Written;
     generate_videos := λ _, Returns finished;
     operations_get := λ _ _, Returns finished;
     files_download := λ _, Returns (PyBytes mp4) |}.

(** The output file cannot be opened for writing. *)
Definition read_only_world : World :=
  {| script_dir := script_dir fair_world; cwd := cwd fair_world;
     read_error := λ _, None;
     write_result := λ _ _, OpenFailed "PermissionError";
     generate_videos := λ _, Returns finished;
     operations_get := λ _ _, Returns finished;
     files_download := λ _, Returns (PyBytes mp4) |}.

(** The disk is full after three bytes of the output file. *)
Definition full_disk_world : World :=
  {| script_dir := script_dir fair_world; cwd := cwd fair_world;
     read_error := λ _, None;
     write_result := λ _ _, WriteFailed "OSError" 3;
     generate_videos := λ _, Returns finished;
     operations_get := λ _ _, Returns finished;
     files_download := λ _, Returns (PyBytes mp4) |}.

(** The job is complete at once, with a result of an unexpected shape. *)
Definition garbled_world : World :=
  {| script_dir := script_dir fair_world; cwd := cwd fair_world;
     read_error := λ _, None;
     write_result := λ _ _, Written;
     generate_videos := λ _, Returns garbled;
     operations_get := λ _ _, Returns garbled;
     files_download := λ _, Returns (PyBytes mp4) |}.

(** The user interrupts the script while it waits for the status. *)
Definition interrupted_world : World :=
  {| script_dir := script_dir fair_world; cwd := cwd fair_world;
     read_error := λ _, None;
     write_result := λ _ _, Written;
     generate_videos := λ _, Returns pending;
     operations_get := λ _ _, Raises (BaseException "KeyboardInterrupt");
     files_download := λ _, Returns (PyBytes mp4) |}.

Definition empty_store : store := {| fs := ∅; polls := 0 |}.

(** Only the archer is there. *)
Definition archer_store : store :=
  {| fs := {[ "/srv/gamebuddies/server/public/avatars/premium/archer.png"
              := [Byte.x89; Byte.x50; Byte.x4e; Byte.x47] ]};
     polls := 0 |}.

(** ** Vocabulary of the further statements *)

Definition is_read (ev : event) : bool :=
  match ev with
  | EOpenRead _ => true
  | _ => false
  end.

Definition is_fetch (ev : event) : bool :=
  match ev with
  | EGet _ => true
  | _ => false
  end.

Definition is_warning (ev : event) : bool :=
  match ev with
  | EPrint (MAvatarNotFound _) => true
  | _ => false
  end.

Definition is_load_failure (ev : event) : bool :=
  match ev with
  | EPrint (MLoadFailed _) => true
  | _ => false
  end.

(** The events of the part of the script that comes before the request is
    sent: lines 11-74 without the early exit. *)
Definition is_startup (ev : event) : bool :=
  match ev with
  | EPrint (MStart | MAvatarNotFound _ | MFound _ | MLoading _
            | MLoadFailed _ | MSending)
  | EOpenRead _ => true
  | _ => false
  end.

(** The events of the result persister: lines 94-128. *)
Definition is_persister (ev : event) : bool :=
  match ev with
  | EPrint (MSaving _ | MVideoObject _ | MVideoVideo _ | MVideoAttributes _
            | MAttemptDownload | MDownloadBytes | MSaved | MDownloadOther _
            | MSaveFailed _ | MNoVideo | MError _)
  | EOpenWrite _ _ | EDownload _ => true
  | _ => false
  end.

(** What the events [evs] of a run and its files, [before] and [after],
    tell about the video: written in full, with the line that says so; or
    not written at all; or a write that failed, without that line and with
    the line of the handler. *)
Definition write_report (w : World) (before after : gmap string bytes)
    (evs : list event) : Prop :=
  ((EPrint MSaved ∈ evs)
   ∧ (∃ content,
        filter (λ ev, is_write ev = true) evs
        = [EOpenWrite (output_path w) content]
        ∧ write_result w (output_path w) content = Written
        ∧ after = <[output_path w := content]> before))
  ∨ ((EPrint MSaved ∉ evs)
     ∧ filter (λ ev, is_write ev = true) evs = []
     ∧ after = before)
  ∨ ((EPrint MSaved ∉ evs)
     ∧ (∃ content (text : string),
          filter (λ ev, is_write ev = true) evs
          = [EOpenWrite (output_path w) content]
          ∧ (EPrint (MSaveFailed text) ∈ evs)
          ∧ (write_result w (output_path w) content = OpenFailed text
             ∧ after = before
             ∨ ∃ written,
                 write_result w (output_path w) content
                 = WriteFailed text written
                 ∧ after
                   = <[output_path w := take written content]> before))).

(** The line of the outer handler that carries [e] ends [evs], right after
    the call that raised [e]: the submission of [req]; or a status fetch,
    asked as the service is at that fetch of the run; or, with nothing
    called in between, the read of the result of the operation that the
    polling loop returned. *)
Definition api_failure_report (w : World) (fuel : nat) (s : store)
    (req : GenerateVideosRequest) (e : exn) (evs : list event) : Prop :=
  is_exception e = true
  ∧ ((∃ pre,
        evs = pre ++ [EGenerate req; EPrint (MApiFailed e)]
        ∧ generate_videos w req = Raises e)
     ∨ (∃ pre operation,
          evs = pre ++ [EGet operation; EPrint (MApiFailed e)]
          ∧ operations_get w
              (polls s + length (filter (λ ev, is_fetch ev = true) pre))
              operation
            = Raises e)
     ∨ (∃ pre operation operation' (text : string),
          evs = pre ++ [EPrint MComplete; EPrint (MApiFailed e)]
          ∧ generate_videos w req = Returns operation
          ∧ out (run (poll w fuel operation) s) = Ret operation'
          ∧ result operation' = Unexpected text
          ∧ e = Exception text)).

(** The line of the handler around the download and the save that carries
    [e] ends [evs], right after the call that raised [e]: the download, or
    the write to the output path. *)
Definition save_failure_report (w : World) (e : exn) (evs : list event)
    : Prop :=
  is_exception e = true
  ∧ ((∃ pre file,
        evs = pre ++ [EDownload file; EPrint (MSaveFailed e)]
        ∧ files_download w file = Raises e)
     ∨ (∃ pre content (text : string),
          evs = pre ++ [EOpenWrite (output_path w) content;
                        EPrint (MSaveFailed e)]
          ∧ e = Exception text
          ∧ (write_result w (output_path w) content = OpenFailed text
             ∨ ∃ written,
                 write_result w (output_path w) content
                 = WriteFailed text written))).

(** One full round of the polling loop made with the handle [operation]. *)
Definition round_events (operation : Operation) : list event :=
  [ESleep 10; EGet operation; EPrint MDot].

(** Starting with the [k]-th status fetch, the service is asked with
    [operation], which is not done, then with each operation of [answers]
    but the last, none of them done either, and it answers with the
    operations of [answers] in turn. *)
Fixpoint polls_through (w : World) (k : nat) (operation : Operation)
    (answers : list Operation) : Prop :=
  match answers with
  | [] => True
  | operation' :: answers' =>
      done operation = false
      ∧ operations_get w k operation = Returns operation'
      ∧ polls_through w (S k) operation' answers'
  end.

(** The line printed when the read of [path] raises in store [s]. *)
Definition load_failure_line (w : World) (s : store) (path : string)
    : option event :=
  match read_result w s path with
  | Returns _ => None
  | Raises e => Some (EPrint (MLoadFailed e))
  end.
(** ** Basic facts about the monad *)

Lemma prepend_nil {A} (r : res A) : prepend [] r = r.
Proof. by destruct r. Qed.

Lemma prepend_prepend {A} evs1 evs2 (r : res A) :
  prepend evs1 (prepend evs2 r) = prepend (evs1 ++ evs2) r.
Proof. unfold prepend; cbn. by rewrite (assoc_L (++)). Qed.

Lemma run_ret_bind {A B} (a : A) (k : A → M B) s :
  run (mret a ≫= k) s = run (k a) s.
Proof. cbn. by destruct (run (k a) s). Qed.

Lemma run_emit_bind {B} ev (k : unit → M B) s :
  run (emit ev ≫= k) s = prepend [ev] (run (k tt) s).
Proof. reflexivity. Qed.

Lemma run_print_bind {B} m (k : unit → M B) s :
  run (print m ≫= k) s = prepend [EPrint m] (run (k tt) s).
Proof. reflexivity. Qed.

Lemma run_get_store_bind {B} (k : store → M B) s :
  run (get_store ≫= k) s = run (k s) s.
Proof. cbn. by destruct (run (k s) s). Qed.

Lemma run_modify_bind {B} f (k : unit → M B) s :
  run (modify f ≫= k) s = run (k tt) (f s).
Proof. cbn. by destruct (run (k tt) (f s)). Qed.

Lemma run_bind_assoc {A B C} (m : M A) (k : A → M B) (h : B → M C) s :
  run ((m ≫= k) ≫= h) s = run (m ≫= λ a, k a ≫= h) s.
Proof.
  unfold mbind, M_bind; cbn. destruct (run m s) as [[a|e|] s1 evs1]; cbn; [|done..].
  destruct (run (k a) s1) as [[b|e|] s2 evs2]; cbn; [|done..].
  by rewrite (assoc_L (++)).
Qed.

Lemma run_bind {A B} (m : M A) (k : A → M B) s :
  run (m ≫= k) s =
  match out (run m s) with
  | Ret a => prepend (events (run m s)) (run (k a) (final (run m s)))
  | Exc e => {| out := Exc e; final := final (run m s); events := events (run m s) |}
  | OutOfFuel =>
      {| out := OutOfFuel; final := final (run m s); events := events (run m s) |}
  end.
Proof. reflexivity. Qed.

Lemma run_try_except {A} (body : M A) handler s :
  run (try_except body handler) s =
  match out (run body s) with
  | Exc e =>
      if is_exception e then
        prepend (events (run body s)) (run (handler e) (final (run body s)))
      else run body s
  | _ => run body s
  end.
Proof. reflexivity. Qed.

(** ** Paths: the output file is none of the avatars *)

Lemma append_assoc (s1 s2 s3 : string) : (s1 +:+ s2) +:+ s3 = s1 +:+ (s2 +:+ s3).
Proof.
  induction s1 as [|c s1 IH]; [done|].
  change (String c ((s1 +:+ s2) +:+ s3) = String c (s1 +:+ (s2 +:+ s3))).
  by rewrite IH.
Qed.

Lemma append_nonempty (s t : string) : t ≠ "" → s +:+ t ≠ "".
Proof. intros Ht. by destruct s. Qed.

Lemma last_char_cons c s : s ≠ "" → Path.last_char (String c s) = Path.last_char s.
Proof. intros Hs. by destruct s. Qed.

Lemma last_char_app s t : t ≠ "" → Path.last_char (s +:+ t) = Path.last_char t.
Proof.
  intros Ht. induction s as [|c s IH]; [done|].
  change (String c s +:+ t) with (String c (s +:+ t)).
  rewrite last_char_cons by by apply append_nonempty. done.
Qed.

Lemma last_char_Some_nonempty s c : Path.last_char s = Some c → s ≠ "".
Proof. by destruct s. Qed.

Lemma last_char_snoc s c :
  Path.last_char s = Some c → ∃ front, s = front +:+ String c "".
Proof.
  induction s as [|c' s IH]; [done|].
  destruct s as [|c'' s].
  - intros [= ->]. by exists "".
  - intros Hlast. destruct IH as [front Hfront]; [done|].
    exists (String c' front).
    change (String c' (String c'' s) = String c' (front +:+ String c "")).
    by rewrite <-Hfront.
Qed.

Lemma join_shape a b : ends_with_component (Path.join a b) b.
Proof.
  unfold Path.join, ends_with_component.
  destruct (Path.startswith_sep b); [by left|].
  destruct (Path.is_empty a) eqn:Hempty.
  { left. by destruct a. }
  cbn [orb]. unfold Path.endswith_sep. case_bool_decide as Hlast; [|by eauto].
  apply last_char_snoc in Hlast as [front Hfront].
  right. exists front. by rewrite Hfront, append_assoc.
Qed.

Lemma ends_with_component_trans path mid tail :
  ends_with_component path mid → ends_with_component mid tail →
  ends_with_component path tail.
Proof.
  intros [->|[front1 ->]] [->|[front2 ->]]; [by left|by right; eauto..|].
  right. exists (front1 +:+ String Path.sep front2).
  by rewrite append_assoc.
Qed.

Lemma ends_with_component_last path tail :
  tail ≠ "" → ends_with_component path tail →
  Path.last_char path = Path.last_char tail.
Proof.
  intros Htail [->|[front ->]]; [done|].
  rewrite last_char_app by done. by apply last_char_cons.
Qed.

Lemma split_nonempty s : Path.split s ≠ [].
Proof.
  destruct s as [|c s]; [done|]. cbn.
  case_bool_decide; [done|]. by destruct (Path.split s).
Qed.

Lemma split_app_sep a b :
  Path.split (a +:+ String Path.sep b) = Path.split a ++ Path.split b.
Proof.
  induction a as [|c a IH].
  - reflexivity.
  - change (String c a +:+ String Path.sep b)
      with (String c (a +:+ String Path.sep b)).
    cbn [Path.split]. rewrite IH. case_bool_decide; [done|].
    pose proof (split_nonempty a). by destruct (Path.split a).
Qed.

Lemma ends_with_component_split path tail :
  ends_with_component path tail →
  ∃ front, Path.split path = front ++ Path.split tail.
Proof.
  intros [->|[front ->]]; [by exists []|].
  exists (Path.split front). apply split_app_sep.
Qed.

Lemma norm_step_regular slashes new_comps comp :
  comp ≠ "" → comp ≠ "." → comp ≠ ".." →
  Path.norm_step slashes new_comps comp = new_comps ++ [comp].
Proof.
  intros H1 H2 H3. unfold Path.norm_step.
  by rewrite !bool_decide_false by done.
Qed.

Lemma unsplit_snoc_last comps comp c :
  Path.last_char comp = Some c →
  Path.last_char (Path.unsplit (comps ++ [comp])) = Some c.
Proof.
  intros Hcomp. induction comps as [|c0 comps IH]; [done|].
  cbn [app Path.unsplit]. destruct (comps ++ [comp]) as [|c1 rest] eqn:Happ.
  { by destruct comps. }
  rewrite last_char_app by done.
  rewrite last_char_cons; [done|]. by eapply last_char_Some_nonempty.
Qed.

Lemma repeat_sep_last n s c :
  Path.last_char s = Some c → Path.last_char (Path.repeat_sep n s) = Some c.
Proof.
  intros Hs. induction n as [|n IH]; [done|]. cbn [Path.repeat_sep].
  rewrite last_char_cons; [done|]. by eapply last_char_Some_nonempty.
Qed.

(** [normpath] keeps a final component that is an ordinary name. *)
Lemma normpath_last path front comp c :
  Path.split path = front ++ [comp] →
  comp ≠ "" → comp ≠ "." → comp ≠ ".." →
  Path.last_char comp = Some c →
  Path.last_char (Path.normpath path) = Some c.
Proof.
  intros Hsplit H1 H2 H3 Hc. unfold Path.normpath.
  destruct path as [|c0 path].
  { destruct front; [by injection Hsplit as <-|by destruct front]. }
  cbn [Path.is_empty]. cbn zeta.
  rewrite Hsplit, fold_left_app. cbn [fold_left].
  rewrite norm_step_regular by done.
  set (stack := fold_left _ front []).
  pose proof (unsplit_snoc_last stack comp c Hc) as Hlast.
  apply (repeat_sep_last (Path.initial_slashes (String c0 path))) in Hlast.
  destruct (Path.repeat_sep _ _) eqn:Hrep; [done|]. by cbn [Path.is_empty].
Qed.

Lemma abspath_join_last cwd dir tail front comp c :
  tail ≠ "" →
  Path.split tail = front ++ [comp] →
  comp ≠ "" → comp ≠ "." → comp ≠ ".." →
  Path.last_char comp = Some c →
  Path.last_char (Path.abspath cwd (Path.join dir tail)) = Some c.
Proof.
  intros Htail Hsplit H1 H2 H3 Hc. unfold Path.abspath.
  assert (ends_with_component
            (if Path.isabs (Path.join dir tail) then Path.join dir tail
             else Path.join cwd (Path.join dir tail)) tail) as Hends.
  { destruct (Path.isabs _); [apply join_shape|].
    eapply ends_with_component_trans; apply join_shape. }
  apply ends_with_component_split in Hends as [front' Hfront'].
  eapply (normpath_last _ (front' ++ front)); [|done..].
  by rewrite Hfront', Hsplit, (assoc_L (++)).
Qed.

Lemma join_last a b : b ≠ "" → Path.last_char (Path.join a b) = Path.last_char b.
Proof. intros Hb. apply ends_with_component_last, join_shape. done. Qed.

Lemma output_path_last w : Path.last_char (output_path w) = Some "4"%char.
Proof.
  unfold output_path.
  by apply (abspath_join_last _ _ _ [".."; ".."; "public"] "gamebuddies_veo_ad.mp4").
Qed.

Lemma avatar_files_last w p :
  p ∈ avatar_files w → Path.last_char p = Some "g"%char.
Proof.
  unfold avatar_files. rewrite !elem_of_cons, elem_of_nil.
  intros [->|[->|[->|[]]]]; by rewrite join_last.
Qed.

Lemma output_path_not_avatar w p : p ∈ avatar_files w → p ≠ output_path w.
Proof.
  intros Hp ->. apply avatar_files_last in Hp.
  rewrite output_path_last in Hp. discriminate.
Qed.

(** ** The asset locator *)

Lemma path_exists_bind {B} p (k : bool → M B) s :
  run (path_exists p ≫= k) s = run (k (bool_decide (is_Some (fs s !! p)))) s.
Proof.
  unfold path_exists. by rewrite run_bind_assoc, run_get_store_bind, run_ret_bind.
Qed.

Lemma locate_avatars_run candidates valid_avatars s :
  run (locate_avatars candidates valid_avatars) s =
  {| out := Ret (valid_avatars ++ filter (λ p, is_Some (fs s !! p)) candidates);
     final := s;
     events := (λ p, EPrint (MAvatarNotFound p))
                 <$> filter (λ p, ¬ is_Some (fs s !! p)) candidates |}.
Proof.
  revert valid_avatars.
  induction candidates as [|p candidates IH]; intros valid_avatars.
  - cbn. by rewrite (right_id_L [] (++)).
  - cbn [locate_avatars]. rewrite path_exists_bind.
    case_bool_decide as Hp.
    + rewrite IH, filter_cons_True, filter_cons_False by auto.
      by rewrite <-(assoc_L (++)).
    + rewrite run_print_bind, IH, filter_cons_False, filter_cons_True by auto.
      reflexivity.
Qed.

(** ** The image loader *)

Lemma read_file_run w path s :
  run (read_file w path) s =
  {| out := match read_result w s path with
            | Returns data => Ret data
            | Raises e => Exc e
            end;
     final := s;
     events := [EOpenRead path] |}.
Proof.
  unfold read_file. rewrite run_emit_bind, run_get_store_bind.
  by destruct (read_result w s path).
Qed.

(** A read raises nothing but an [Exception]. *)
Lemma read_result_exception w s path e :
  read_result w s path = Raises e → is_exception e = true.
Proof.
  unfold read_result. destruct (read_error w path); [by intros [= <-]|].
  destruct (fs s !! path); [done|]. by intros [= <-].
Qed.

Lemma load_images_run w paths reference_images s :
  run (load_images w paths reference_images) s =
  {| out := Ret (reference_images ++ omap (loaded_image w s) paths);
     final := s;
     events := paths ≫= load_events w s |}.
Proof.
  revert reference_images.
  induction paths as [|path paths IH]; intros reference_images.
  - cbn. by rewrite (right_id_L [] (++)).
  - cbn [load_images]. rewrite run_print_bind, run_bind, run_try_except.
    rewrite run_bind, read_file_run. cbn [out final events].
    unfold loaded_image, read_bytes, load_events.
    cbn [omap mbind list_bind list_omap].
    destruct (read_result w s path) as [data|e] eqn:Hread; cbn.
    + rewrite IH. unfold prepend; cbn. by rewrite <-(assoc_L (++)).
    + rewrite (read_result_exception _ _ _ _ Hread). cbn.
      rewrite IH. reflexivity.
Qed.

(** ** The polling loop *)

Lemma api_operations_get_run w operation s :
  run (api_operations_get w operation) s =
  {| out := match operations_get w (polls s) operation with
            | Returns operation' => Ret operation'
            | Raises e => Exc e
            end;
     final := incr_polls s;
     events := [EGet operation] |}.
Proof.
  unfold api_operations_get.
  rewrite run_emit_bind, run_get_store_bind, run_modify_bind.
  by destruct (operations_get w (polls s) operation).
Qed.

Lemma poll_done w fuel operation s :
  done operation = true →
  run (poll w fuel operation) s = {| out := Ret operation; final := s; events := [] |}.
Proof. intros Hdone. destruct fuel; cbn [poll]; by rewrite Hdone. Qed.

Lemma poll_out_of_fuel w operation s :
  done operation = false →
  run (poll w 0 operation) s = {| out := OutOfFuel; final := s; events := [] |}.
Proof. intros Hdone. cbn [poll]. by rewrite Hdone. Qed.

Lemma poll_step w fuel operation s :
  done operation = false →
  run (poll w (S fuel) operation) s =
  match operations_get w (polls s) operation with
  | Returns operation' =>
      prepend [ESleep 10; EGet operation; EPrint MDot]
        (run (poll w fuel operation') (incr_polls s))
  | Raises e =>
      {| out := Exc e; final := incr_polls s;
         events := [ESleep 10; EGet operation] |}
  end.
Proof.
  intros Hdone. cbn [poll]. rewrite Hdone. unfold sleep.
  rewrite run_emit_bind, run_bind, api_operations_get_run. cbn [out final events].
  destruct (operations_get w (polls s) operation) as [operation'|e]; [|done].
  rewrite run_print_bind, !prepend_prepend. reflexivity.
Qed.

(** The loop is left normally only with a completed operation. *)
Lemma poll_ret_done w fuel operation s operation' :
  out (run (poll w fuel operation) s) = Ret operation' → done operation' = true.
Proof.
  revert operation s. induction fuel as [|fuel IH]; intros operation s.
  - destruct (done operation) eqn:Hdone.
    + rewrite poll_done by done. cbn. congruence.
    + by rewrite poll_out_of_fuel.
  - destruct (done operation) eqn:Hdone.
    + rewrite poll_done by done. cbn. congruence.
    + rewrite poll_step by done.
      destruct (operations_get w (polls s) operation); [|done].
      cbn. apply IH.
Qed.

(** The loop is left with an exception only when a status fetch raises it. *)
Lemma poll_exc_fetch w fuel operation s e :
  out (run (poll w fuel operation) s) = Exc e →
  ∃ k operation', operations_get w k operation' = Raises e.
Proof.
  revert operation s. induction fuel as [|fuel IH]; intros operation s.
  - destruct (done operation) eqn:Hdone.
    + by rewrite poll_done.
    + by rewrite poll_out_of_fuel.
  - destruct (done operation) eqn:Hdone.
    + by rewrite poll_done.
    + rewrite poll_step by done.
      destruct (operations_get w (polls s) operation) as [operation'|e'] eqn:Hget.
      * cbn. apply IH.
      * cbn. intros [= ->]. eauto.
Qed.

(** While every fetch answers with an operation that is not done, the loop
    uses up any number of rounds, sleeping once in each. *)
Lemma poll_forever w fuel operation s :
  (∀ k operation1, ∃ operation2,
      operations_get w k operation1 = Returns operation2
      ∧ done operation2 = false) →
  done operation = false →
  out (run (poll w fuel operation) s) = OutOfFuel
  ∧ filter (λ ev, is_sleep ev = true) (events (run (poll w fuel operation) s))
    = replicate fuel (ESleep 10)
  ∧ length (filter (λ ev, is_api_call ev = true)
              (events (run (poll w fuel operation) s))) = fuel.
Proof.
  intros Hget. revert operation s.
  induction fuel as [|fuel IH]; intros operation s Hdone.
  - by rewrite poll_out_of_fuel.
  - rewrite poll_step by done.
    destruct (Hget (polls s) operation) as (operation2 & -> & Hdone2).
    destruct (IH operation2 (incr_polls s) Hdone2) as (Hout & Hsleep & Hapi).
    cbn [prepend out events]. split_and!; [done| |].
    + cbn [app]. rewrite filter_cons_True by done.
      rewrite filter_cons_False by done.
      rewrite filter_cons_False by done.
      by rewrite Hsleep.
    + cbn [app]. rewrite filter_cons_False by done.
      rewrite filter_cons_True by done.
      rewrite filter_cons_False by done.
      cbn. by rewrite Hapi.
Qed.

(** ** The result persister *)

Lemma api_files_download_run w file s :
  run (api_files_download w file) s =
  {| out := match files_download w file with
            | Returns content => Ret content
            | Raises e => Exc e
            end;
     final := s;
     events := [EDownload file] |}.
Proof.
  unfold api_files_download. rewrite run_emit_bind.
  by destruct (files_download w file).
Qed.

Lemma run_try_except_print (body : M unit) line s :
  run (try_except body (λ e, print (line e))) s = caught line (run body s).
Proof.
  rewrite run_try_except. unfold caught.
  destruct (out (run body s)) as [|e|]; [done| |done].
  by destruct (is_exception e).
Qed.

Lemma write_file_run w p data s :
  run (write_file w p data) s =
  match write_result w p data with
  | Written =>
      {| out := Ret tt; final := set_fs (<[p := data]>) s;
         events := [EOpenWrite p data] |}
  | OpenFailed text =>
      {| out := Exc (Exception text); final := s;
         events := [EOpenWrite p data] |}
  | WriteFailed text written =>
      {| out := Exc (Exception text);
         final := set_fs (<[p := take written data]>) s;
         events := [EOpenWrite p data] |}
  end.
Proof.
  unfold write_file. rewrite run_emit_bind.
  by destruct (write_result w p data).
Qed.

Lemma save_result_run w operation s :
  run (save_result w operation) s =
  match result operation with
  | Unexpected text =>
      {| out := Exc (Exception text); final := s; events := [] |}
  | Value response =>
      match videos_of response with
      | video0 :: _ =>
          match files_download w (video video0) with
          | Returns (PyBytes content) =>
              {| out := Ret tt;
                 final := written_store w content s;
                 events := download_events w video0 ++ write_events w content |}
          | Returns (PyOther type_name) =>
              {| out := Ret tt; final := s;
                 events := download_events w video0 ++
                           [ EPrint (MDownloadOther type_name) ] |}
          | Raises save_err =>
              if is_exception save_err then
                {| out := Ret tt; final := s;
                   events := download_events w video0 ++
                             [ EPrint (MSaveFailed save_err) ] |}
              else
                {| out := Exc save_err; final := s;
                   events := download_events w video0 |}
          end
      | [] =>
          {| out := Ret tt; final := s;
             events := EPrint MNoVideo :: error_lines operation |}
      end
  end.
Proof.
  unfold save_result.
  destruct (result operation) as [response|text]; [|reflexivity].
  cbn [read_attribute]. rewrite run_ret_bind.
  unfold error_lines.
  destruct (videos_of response) as [|video0 rest].
  - rewrite run_print_bind.
    destruct (error operation) as [err|]; [|done]. by destruct (truthy err).
  - rewrite run_print_bind, run_try_except_print.
    rewrite !run_print_bind, run_bind, api_files_download_run.
    cbn [out final events prepend]. unfold written_store, write_events.
    destruct (files_download w (video video0)) as [[content|type_name]|save_err].
    + rewrite run_print_bind, run_bind, write_file_run.
      destruct (write_result w (output_path w) content); reflexivity.
    + reflexivity.
    + cbn [caught prepend out final events]. unfold caught. cbn [out].
      by destruct (is_exception save_err).
Qed.

(** The result persister raises nothing but what reading the result raises
    and what the download lets pass. *)
Lemma save_result_out w operation s e :
  out (run (save_result w operation) s) = Exc e →
  result operation = Unexpected match e with Exception t | BaseException t => t end
  ∧ is_exception e = true
  ∨ is_exception e = false
    ∧ ∃ response video0 rest,
        result operation = Value response
        ∧ videos_of response = video0 :: rest
        ∧ files_download w (video video0) = Raises e.
Proof.
  rewrite save_result_run.
  destruct (result operation) as [response|text]; [|intros [= <-]; by left].
  destruct (videos_of response) as [|video0 rest] eqn:Hvideos; [done|].
  destruct (files_download w (video video0)) as [[content|type_name]|save_err]
    eqn:Hdownload; [done..|].
  destruct (is_exception save_err) eqn:Hclass; [done|].
  intros [= <-]. right. split; [done|]. by exists response, video0, rest.
Qed.

Lemma save_result_fuel w operation s :
  out (run (save_result w operation) s) ≠ OutOfFuel.
Proof.
  rewrite save_result_run.
  destruct (result operation) as [response|text]; [|done].
  destruct (videos_of response) as [|video0 rest]; [done|].
  destruct (files_download w (video video0)) as [[content|type_name]|save_err];
    [done..|].
  by destruct (is_exception save_err).
Qed.

(** ** Submission, polling and saving under the outer handler *)

Lemma api_generate_videos_run w req s :
  run (api_generate_videos w req) s =
  {| out := match generate_videos w req with
            | Returns operation => Ret operation
            | Raises e => Exc e
            end;
     final := s;
     events := [EGenerate req] |}.
Proof.
  unfold api_generate_videos. rewrite run_emit_bind.
  by destruct (generate_videos w req).
Qed.

Lemma submit_poll_save_run w fuel reference_images s :
  run (submit_poll_save w fuel reference_images) s =
  caught MApiFailed (submit_poll_save_body w fuel reference_images s).
Proof.
  unfold submit_poll_save. rewrite run_try_except_print. f_equal.
  unfold submit_poll_save_body. rewrite run_bind.
  rewrite api_generate_videos_run. cbn [out final events].
  destruct (generate_videos w _) as [operation|e]; [|reflexivity].
  rewrite run_print_bind, run_bind. cbn zeta.
  destruct (run (poll w fuel operation) s) as [[operation'|e|] s1 evs1];
    cbn [out final events prepend]; [|reflexivity..].
  rewrite run_print_bind. unfold prepend. cbn [out final events].
  by rewrite <-!(assoc_L (++)).
Qed.

(** ** The whole script *)

Lemma create_gamebuddies_ad_run w fuel s :
  run (create_gamebuddies_ad w fuel) s =
  match existing_avatars w s with
  | [] =>
      {| out := Ret tt; final := s;
         events := EPrint MStart :: missing_warnings w s ++ [EPrint MNoAvatars] |}
  | _ :: _ =>
      prepend (startup_events w s)
        (run (submit_poll_save w fuel (loaded_references w s)) s)
  end.
Proof.
  unfold create_gamebuddies_ad.
  rewrite run_print_bind, run_bind, locate_avatars_run.
  cbn [out final events app]. unfold startup_events, loaded_references.
  fold (existing_avatars w s). fold (missing_warnings w s).
  destruct (existing_avatars w s) as [|p valid_avatars] eqn:Hvalid.
  - reflexivity.
  - rewrite run_print_bind, run_bind, load_images_run.
    cbn [out final events app]. rewrite run_print_bind, !prepend_prepend.
    f_equal. rewrite <-!(assoc_L (++)). reflexivity.
Qed.

(** ** What a run writes *)

Section Frame.

Variable out_path : string.

Lemma frame_ok_prepend {A} s s1 evs (r : res A) :
  Forall (λ ev, ∀ p data, ev = EOpenWrite p data → p = out_path) evs →
  (∀ p, p ≠ out_path → fs s1 !! p = fs s !! p) →
  frame_ok out_path s1 r → frame_ok out_path s (prepend evs r).
Proof.
  intros Hevs Hfs [Hevs' Hfs']. split; cbn.
  - by apply Forall_app.
  - intros p Hp. by rewrite Hfs', Hfs.
Qed.

Lemma writes_only_ret {A} (a : A) : writes_only out_path (mret a).
Proof. intros s. split; cbn; [constructor|done]. Qed.

Lemma writes_only_raise {A} e : writes_only out_path (raise (A:=A) e).
Proof. intros s. split; cbn; [constructor|done]. Qed.

Lemma writes_only_out_of_fuel {A} : writes_only out_path (out_of_fuel (A:=A)).
Proof. intros s. split; cbn; [constructor|done]. Qed.

Lemma writes_only_bind {A B} (m : M A) (k : A → M B) :
  writes_only out_path m → (∀ a, writes_only out_path (k a)) →
  writes_only out_path (m ≫= k).
Proof.
  intros Hm Hk s. rewrite run_bind. destruct (Hm s) as [Hevs Hfs].
  destruct (out (run m s)) as [a| |]; [|by split..].
  apply (frame_ok_prepend _ (final (run m s))); [done..|apply Hk].
Qed.

Lemma writes_only_try_except {A} (body : M A) handler :
  writes_only out_path body → (∀ e, writes_only out_path (handler e)) →
  writes_only out_path (try_except body handler).
Proof.
  intros Hbody Hhandler s. rewrite run_try_except.
  pose proof (Hbody s) as Hs. destruct Hs as [Hevs Hfs].
  destruct (out (run body s)) as [|e|]; [by split| |by split].
  destruct (is_exception e); [|by split].
  apply (frame_ok_prepend _ (final (run body s))); [done..|apply Hhandler].
Qed.

Lemma writes_only_emit ev :
  (∀ p data, ev = EOpenWrite p data → p = out_path) →
  writes_only out_path (emit ev).
Proof. intros Hev s. split; cbn; [by repeat constructor|done]. Qed.

Lemma writes_only_print m : writes_only out_path (print m).
Proof. by apply writes_only_emit. Qed.

Lemma writes_only_get_store : writes_only out_path get_store.
Proof. intros s. split; cbn; [constructor|done]. Qed.

Lemma writes_only_incr_polls : writes_only out_path (modify incr_polls).
Proof. intros s. split; cbn; [constructor|done]. Qed.

Lemma writes_only_of_reply {A} (r : reply A) : writes_only out_path (of_reply r).
Proof. destruct r; [apply writes_only_ret|apply writes_only_raise]. Qed.

Lemma writes_only_write_file w data :
  writes_only out_path (write_file w out_path data).
Proof.
  intros s. rewrite write_file_run.
  destruct (write_result w out_path data); split; cbn;
    try (repeat constructor; by intros ?? [= -> _]);
    intros p Hp; by rewrite ?lookup_insert_ne.
Qed.

End Frame.

Create HintDb frame discriminated.

#[local] Hint Resolve writes_only_ret writes_only_raise writes_only_out_of_fuel
  writes_only_print writes_only_get_store writes_only_incr_polls
  writes_only_of_reply writes_only_write_file : frame.

Ltac frame_step :=
  first
    [ solve [auto with frame nocore]
    | apply writes_only_bind; [|intros ?]
    | apply writes_only_try_except; [|intros ?]
    | apply writes_only_emit; discriminate
    | match goal with
      | |- writes_only _ (match ?x with _ => _ end) => destruct x
      end ].

Ltac frame := repeat frame_step.

Lemma writes_only_locate_avatars out_path candidates valid_avatars :
  writes_only out_path (locate_avatars candidates valid_avatars).
Proof.
  revert valid_avatars. induction candidates as [|p candidates IH];
    intros valid_avatars; cbn [locate_avatars]; unfold path_exists; frame.
Qed.

Lemma writes_only_load_images out_path w paths reference_images :
  writes_only out_path (load_images w paths reference_images).
Proof.
  revert reference_images. induction paths as [|path paths IH];
    intros reference_images; cbn [load_images]; unfold read_file; frame.
Qed.

Lemma writes_only_poll out_path w fuel operation :
  writes_only out_path (poll w fuel operation).
Proof.
  revert operation. induction fuel as [|fuel IH]; intros operation;
    cbn [poll]; unfold sleep, api_operations_get; frame.
Qed.

Lemma writes_only_save_result w operation :
  writes_only (output_path w) (save_result w operation).
Proof. unfold save_result, read_attribute, api_files_download. frame. Qed.

Lemma writes_only_create_gamebuddies_ad w fuel :
  writes_only (output_path w) (create_gamebuddies_ad w fuel).
Proof.
  unfold create_gamebuddies_ad, submit_poll_save, api_generate_videos.
  pose proof (writes_only_locate_avatars (output_path w)).
  pose proof (writes_only_load_images (output_path w) w).
  pose proof (writes_only_poll (output_path w) w).
  pose proof (writes_only_save_result w).
  frame.
Qed.

(** ** The claims *)

Lemma omap_fmap_option {A B C} (f : B → C) (g : A → option B) (l : list A) :
  omap (λ x, f <$> g x) l = f <$> omap g l.
Proof.
  induction l as [|x l IH]; [done|]. cbn.
  destruct (g x); cbn; by rewrite IH.
Qed.

Lemma filter_all_false {A} (P : A → Prop) `{!∀ x, Decision (P x)} (l : list A) :
  (∀ x, x ∈ l → ¬ P x) → filter P l = [].
Proof.
  induction l as [|x l IH]; intros Hl; [done|].
  rewrite filter_cons_False by (apply Hl; left).
  apply IH. intros y Hy. apply Hl. by right.
Qed.

Lemma filter_all_true {A} (P : A → Prop) `{!∀ x, Decision (P x)} (l : list A) :
  (∀ x, x ∈ l → P x) → filter P l = l.
Proof.
  induction l as [|x l IH]; intros Hl; [done|].
  rewrite filter_cons_True by (apply Hl; left).
  f_equal. apply IH. intros y Hy. apply Hl. by right.
Qed.

Lemma filter_bool_none_list {A} (P : A → bool) (l : list A) :
  Forall (λ x, P x = false) l → filter (λ x, P x = true) l = [].
Proof.
  intros Hl. apply filter_all_false. intros x Hx.
  rewrite Forall_forall in Hl. by rewrite (Hl x Hx).
Qed.

Lemma load_events_no_api w s path :
  Forall (λ ev, is_api_call ev = false) (load_events w s path).
Proof.
  unfold load_events. destruct (read_result w s path); by repeat constructor.
Qed.

Lemma startup_events_no_api w s :
  Forall (λ ev, is_api_call ev = false) (startup_events w s).
Proof.
  unfold startup_events, missing_warnings.
  constructor; [done|]. rewrite !Forall_app. split_and!.
  - apply Forall_fmap, Forall_true. done.
  - by repeat constructor.
  - apply Forall_bind, Forall_true. intros path. apply load_events_no_api.
  - by repeat constructor.
Qed.

(** C8. Whatever the filesystem holds, the asset locator returns exactly the
    candidate paths that exist, in the order of the candidate list, prints
    one warning for each candidate that is missing, in that order too, and
    changes nothing. *)
Theorem asset_locator_existing_in_order w s :
  let r := run (locate_avatars (avatar_files w) []) s in
  out r = Ret (filter (λ p, is_Some (fs s !! p)) (avatar_files w))
  ∧ events r = (λ p, EPrint (MAvatarNotFound p))
                 <$> filter (λ p, ¬ is_Some (fs s !! p)) (avatar_files w)
  ∧ filter (λ p, is_Some (fs s !! p)) (avatar_files w) `sublist_of` avatar_files w
  ∧ final r = s.
Proof.
  cbn zeta. rewrite locate_avatars_run. cbn [out final events app].
  split_and!; [done..| |done]. apply sublist_filter.
Qed.

(** C3. When none of the candidate avatar paths exists, the run consists of
    the start line, one warning per candidate and the line saying that no
    avatar was found; it makes no API call (no submission, no status fetch,
    no download), leaves the store as it was and returns. *)
Theorem no_avatar_no_api_call w fuel s :
  (∀ p, p ∈ avatar_files w → fs s !! p = None) →
  let r := run (create_gamebuddies_ad w fuel) s in
  out r = Ret tt
  ∧ events r = EPrint MStart ::
               ((λ p, EPrint (MAvatarNotFound p)) <$> avatar_files w)
               ++ [EPrint MNoAvatars]
  ∧ Forall (λ ev, is_api_call ev = false) (events r)
  ∧ final r = s.
Proof.
  intros Hnone. cbn zeta. rewrite create_gamebuddies_ad_run.
  unfold existing_avatars, missing_warnings.
  rewrite filter_all_false, filter_all_true.
  - cbn [out final events]. split_and!; [done..| |done].
    constructor; [done|]. rewrite Forall_app. split; [|by repeat constructor].
    by apply Forall_fmap, Forall_true.
  - intros p Hp. rewrite (Hnone p Hp). by intros [? ?].
  - intros p Hp. rewrite (Hnone p Hp). by intros [? ?].
Qed.

Lemma no_avatar_no_api_call_witness :
  let r := run (create_gamebuddies_ad fair_world 3) empty_store in
  out r = Ret tt
  ∧ events r = EPrint MStart ::
               ((λ p, EPrint (MAvatarNotFound p)) <$> avatar_files fair_world)
               ++ [EPrint MNoAvatars]
  ∧ Forall (λ ev, is_api_call ev = false) (events r)
  ∧ final r = empty_store.
Proof.
  apply (no_avatar_no_api_call fair_world 3 empty_store).
  intros p _. reflexivity.
Defined.

(** C4. For every list of paths, the image loader returns one reference
    image for each file whose bytes are read, in the order of the list, made
    of exactly those bytes and tagged "asset"; a read that raises is caught,
    a line is printed for it, the file is skipped and the loop goes on to the
    remaining files: the loader itself never raises, and it changes
    nothing. *)
Theorem image_loader_one_reference_per_read w s paths :
  let r := run (load_images w paths []) s in
  out r = Ret (asset_reference <$> omap (read_bytes w s) paths)
  ∧ Forall (λ ri, reference_type ri = "asset" ∧ mime_type (image ri) = "image/png")
      (asset_reference <$> omap (read_bytes w s) paths)
  ∧ events r = paths ≫= load_events w s
  ∧ (∀ path e, path ∈ paths → read_result w s path = Raises e →
       EPrint (MLoadFailed e) ∈ events r)
  ∧ final r = s.
Proof.
  cbn zeta. rewrite load_images_run. cbn [out final events app].
  unfold loaded_image. rewrite omap_fmap_option.
  split_and!; [done| |done| |done].
  - by apply Forall_fmap, Forall_true.
  - intros path e Hpath Hraise. apply list_elem_of_bind.
    exists path. split; [|done]. unfold load_events. rewrite Hraise.
    set_solver.
Qed.

Lemma image_loader_one_reference_per_read_witness :
  let r := run (load_images unreadable_world
                  ["/srv/gamebuddies/server/public/avatars/premium/archer.png"] [])
             archer_store in
  out r = Ret [] ∧ EPrint (MLoadFailed "PermissionError") ∈ events r.
Proof.
  destruct (image_loader_one_reference_per_read unreadable_world archer_store
              ["/srv/gamebuddies/server/public/avatars/premium/archer.png"])
    as (Hout & _ & _ & Hlogged & _).
  split; [exact Hout|].
  apply (Hlogged "/srv/gamebuddies/server/public/avatars/premium/archer.png");
    [by left|reflexivity].
Defined.





Lemma videos_of_result response videos :
  generated_videos response = Some videos →
  videos_of (Some response) = videos.
Proof. intros Hvideos. unfold videos_of. by rewrite Hvideos. Qed.

(** C2, as it holds.  For a completed operation whose result holds a
    non-empty list of generated videos, when the download of the first one
    gives bytes, the result persister opens [output_path] for writing, once,
    and nothing else.  Unless opening or writing raises, the file there then
    holds exactly the downloaded bytes, whatever it held before, and the run
    ends with the line that says so.  When opening raises, every file is as
    it was; when writing raises, the file holds the bytes written so far;
    both times the exception is caught by the handler around the download
    and the save, whose line ends the run. *)
Theorem persister_writes_bytes_unless_write_fails
    w s operation response video0 rest content :
  done operation = true →
  result operation = Some response →
  generated_videos response = Some (video0 :: rest) →
  files_download w (video video0) = Returns (PyBytes content) →
  let r := run (save_result w operation) s in
  out r = Ret tt
  ∧ filter (λ ev, is_write ev = true) (events r)
    = [EOpenWrite (output_path w) content]
  ∧ match write_result w (output_path w) content with
    | Written =>
        fs (final r) = <[output_path w := content]> (fs s)
        ∧ fs (final r) !! output_path w = Some content
        ∧ events r = download_events w video0
                     ++ [ EPrint MDownloadBytes;
                          EOpenWrite (output_path w) content;
                          EPrint MSaved ]
    | OpenFailed text =>
        final r = s
        ∧ events r = download_events w video0
                     ++ [ EPrint MDownloadBytes;
                          EOpenWrite (output_path w) content;
                          EPrint (MSaveFailed text) ]
    | WriteFailed text written =>
        fs (final r) = <[output_path w := take written content]> (fs s)
        ∧ events r = download_events w video0
                     ++ [ EPrint MDownloadBytes;
                          EOpenWrite (output_path w) content;
                          EPrint (MSaveFailed text) ]
    end.
Proof.
  intros _ Hres Hvideos Hdownload. cbn zeta.
  rewrite save_result_run, Hres, (videos_of_result _ _ Hvideos), Hdownload.
  cbn [out final events]. unfold written_store, write_events.
  destruct (write_result w (output_path w) content);
    cbn [set_fs fs]; split_and!; try done.
  apply lookup_insert_eq.
Qed.

Lemma persister_writes_bytes_unless_write_fails_witness :
  (let r := run (save_result fair_world finished) archer_store in
   out r = Ret tt
   ∧ filter (λ ev, is_write ev = true) (events r)
     = [EOpenWrite (output_path fair_world) mp4]
   ∧ fs (final r) = <[output_path fair_world := mp4]> (fs archer_store)
     ∧ fs (final r) !! output_path fair_world = Some mp4
     ∧ events r = download_events fair_world clip
                  ++ [ EPrint MDownloadBytes;
                       EOpenWrite (output_path fair_world) mp4;
                       EPrint MSaved ])
  ∧ (let r := run (save_result read_only_world finished) archer_store in
     out r = Ret tt
     ∧ filter (λ ev, is_write ev = true) (events r)
       = [EOpenWrite (output_path read_only_world) mp4]
     ∧ final r = archer_store
       ∧ events r = download_events read_only_world clip
                    ++ [ EPrint MDownloadBytes;
                         EOpenWrite (output_path read_only_world) mp4;
                         EPrint (MSaveFailed "PermissionError") ])
  ∧ (let r := run (save_result full_disk_world finished) archer_store in
     out r = Ret tt
     ∧ filter (λ ev, is_write ev = true) (events r)
       = [EOpenWrite (output_path full_disk_world) mp4]
     ∧ fs (final r)
       = <[output_path full_disk_world := take 3 mp4]> (fs archer_store)
       ∧ events r = download_events full_disk_world clip
                    ++ [ EPrint MDownloadBytes;
                         EOpenWrite (output_path full_disk_world) mp4;
                         EPrint (MSaveFailed "OSError") ]).
Proof.
  split_and!.
  - apply (persister_writes_bytes_unless_write_fails fair_world archer_store
             finished {| generated_videos := Some [clip] |} clip [] mp4);
      reflexivity.
  - apply (persister_writes_bytes_unless_write_fails read_only_world
             archer_store finished {| generated_videos := Some [clip] |}
             clip [] mp4);
      reflexivity.
  - apply (persister_writes_bytes_unless_write_fails full_disk_world
             archer_store finished {| generated_videos := Some [clip] |}
             clip [] mp4);
      reflexivity.
Defined.

(** C2, as first stated, fails: when the output file cannot be opened for
    writing, the download gives bytes and yet no file holds them. *)
Lemma write_failure_leaves_no_video :
  ¬ downloaded_bytes_always_written read_only_world archer_store finished.
Proof.
  intros Hclaim.
  specialize (Hclaim {| generated_videos := Some [clip] |} clip [] mp4
                eq_refl eq_refl eq_refl eq_refl).
  vm_compute in Hclaim. discriminate.
Qed.

(** C5. For a completed operation whose first generated video downloads to
    a value that is not bytes, the result persister writes no file: the store
    is unchanged, no event of its run is a write, and the line that reports
    the type of the value is the last thing it does. *)
Theorem non_bytes_download_writes_nothing
    w s operation response video0 rest type_name :
  done operation = true →
  result operation = Some response →
  generated_videos response = Some (video0 :: rest) →
  files_download w (video video0) = Returns (PyOther type_name) →
  let r := run (save_result w operation) s in
  out r = Ret tt
  ∧ final r = s
  ∧ Forall (λ ev, is_write ev = false) (events r)
  ∧ events r = download_events w video0 ++ [EPrint (MDownloadOther type_name)].
Proof.
  intros _ Hres Hvideos Hdownload. cbn zeta.
  rewrite save_result_run, Hres, (videos_of_result _ _ Hvideos), Hdownload.
  cbn [out final events]. split_and!; [done..| |done].
  by repeat constructor.
Qed.

Lemma non_bytes_download_writes_nothing_witness :
  let r := run (save_result odd_download_world finished) archer_store in
  out r = Ret tt
  ∧ final r = archer_store
  ∧ Forall (λ ev, is_write ev = false) (events r)
  ∧ events r = download_events odd_download_world clip
               ++ [EPrint (MDownloadOther "<class 'NoneType'>")].
Proof.
  apply (non_bytes_download_writes_nothing odd_download_world archer_store
           finished {| generated_videos := Some [clip] |} clip []
           "<class 'NoneType'>");
    reflexivity.
Defined.

(** C6, as it holds.  For a completed operation whose result is absent, or
    whose list of generated videos is absent or empty, the result persister
    writes no file (the store is unchanged and its run has no write), prints
    that no video was returned, and then prints the error of the operation
    when there is one and it is truthy; an error that is there but falsy is
    not printed. *)
Theorem no_video_logged_with_truthy_error w s operation :
  done operation = true →
  (result operation = None
   ∨ ∃ response, result operation = Some response
       ∧ (generated_videos response = None
          ∨ generated_videos response = Some [])) →
  let r := run (save_result w operation) s in
  out r = Ret tt
  ∧ final r = s
  ∧ Forall (λ ev, is_write ev = false) (events r)
  ∧ events r = EPrint MNoVideo ::
               match error operation with
               | Some err => if truthy err then [EPrint (MError err)] else []
               | None => []
               end.
Proof.
  intros _ Hempty. cbn zeta. rewrite save_result_run.
  assert (∃ response, result operation = Value response
                      ∧ videos_of response = []) as (response & -> & ->).
  { destruct Hempty as [->|(response & -> & [Hnone|Hnone])].
    - by exists None.
    - exists (Some response). split; [done|]. unfold videos_of. by rewrite Hnone.
    - exists (Some response). split; [done|]. unfold videos_of. by rewrite Hnone. }
  cbn [out final events]. unfold error_lines.
  split_and!; [done..| |done].
  destruct (error operation) as [err|]; [|by repeat constructor].
  destruct (truthy err); by repeat constructor.
Qed.

Lemma no_video_logged_with_truthy_error_witness :
  let r := run (save_result fair_world rejected) archer_store in
  out r = Ret tt
  ∧ final r = archer_store
  ∧ Forall (λ ev, is_write ev = false) (events r)
  ∧ events r = [EPrint MNoVideo; EPrint (MError "quota exceeded")].
Proof.
  apply (no_video_logged_with_truthy_error fair_world archer_store rejected).
  - reflexivity.
  - right. exists {| generated_videos := Some [] |}. split; [reflexivity|].
    by right.
Defined.

(** C6, as first stated, fails: an operation without a video whose error is
    there but empty gets the line that no video was returned and no line
    for its error. *)
Lemma empty_error_not_reported :
  ¬ present_error_always_reported fair_world archer_store hushed.
Proof.
  intros Hclaim.
  specialize (Hclaim eq_refl (or_introl eq_refl) "" eq_refl).
  vm_compute in Hclaim.
  apply list_elem_of_In in Hclaim. cbn in Hclaim.
  destruct Hclaim as [Hline|[]]. discriminate.
Qed.

(** C10. In every run of the script, every write is to [output_path], and
    every other path holds afterwards what it held before; in particular no
    candidate avatar is [output_path], none is ever opened for writing, and
    each keeps its contents. *)
Theorem only_output_path_written w fuel s :
  let r := run (create_gamebuddies_ad w fuel) s in
  (∀ p data, EOpenWrite p data ∈ events r → p = output_path w)
  ∧ (∀ p, p ≠ output_path w → fs (final r) !! p = fs s !! p)
  ∧ (∀ p, p ∈ avatar_files w →
       p ≠ output_path w
       ∧ (∀ data, EOpenWrite p data ∉ events r)
       ∧ fs (final r) !! p = fs s !! p).
Proof.
  cbn zeta. destruct (writes_only_create_gamebuddies_ad w fuel s) as [Hevs Hfs].
  rewrite Forall_forall in Hevs.
  assert (∀ p data,
            EOpenWrite p data ∈ events (run (create_gamebuddies_ad w fuel) s) →
            p = output_path w) as Hwrites.
  { intros p data Hin. by eapply Hevs. }
  split_and!; [done..|].
  intros p Hp. pose proof (output_path_not_avatar w p Hp) as Hne.
  split_and!; [done| |by apply Hfs].
  intros data Hin. by apply Hne, (Hwrites p data).
Qed.

Lemma only_output_path_written_witness :
  let r := run (create_gamebuddies_ad fair_world 3) archer_store in
  "/srv/gamebuddies/server/public/avatars/premium/archer.png"
    ≠ output_path fair_world
  ∧ (∀ data,
       EOpenWrite "/srv/gamebuddies/server/public/avatars/premium/archer.png" data
         ∉ events r)
  ∧ fs (final r) !! "/srv/gamebuddies/server/public/avatars/premium/archer.png"
    = fs archer_store
        !! "/srv/gamebuddies/server/public/avatars/premium/archer.png".
Proof.
  apply (only_output_path_written fair_world 3 archer_store). by left.
Defined.

Lemma poll_events_shape w fuel operation s :
  Forall (λ ev, is_sleep ev = true ∨ (∃ op, ev = EGet op) ∨ ev = EPrint MDot)
    (events (run (poll w fuel operation) s)).
Proof.
  revert operation s. induction fuel as [|fuel IH]; intros operation s.
  - destruct (done operation) eqn:Hdone.
    + rewrite poll_done by done. constructor.
    + rewrite poll_out_of_fuel by done. constructor.
  - destruct (done operation) eqn:Hdone.
    + rewrite poll_done by done. constructor.
    + rewrite poll_step by done.
      destruct (operations_get w (polls s) operation); cbn [prepend events app].
      * repeat (constructor; [by eauto|]). apply IH.
      * repeat (constructor; [by eauto|]). constructor.
Qed.

(** Every fetch of the loop is made with a handle that was seen not done. *)
Lemma poll_fetches_unfinished w fuel operation s :
  Forall (λ ev, ∀ op, ev = EGet op → done op = false)
    (events (run (poll w fuel operation) s)).
Proof.
  revert operation s. induction fuel as [|fuel IH]; intros operation s.
  - destruct (done operation) eqn:Hdone.
    + rewrite poll_done by done. constructor.
    + rewrite poll_out_of_fuel by done. constructor.
  - destruct (done operation) eqn:Hdone.
    + rewrite poll_done by done. constructor.
    + rewrite poll_step by done.
      destruct (operations_get w (polls s) operation); cbn [prepend events app].
      * constructor; [done|]. constructor; [by intros ? [= <-]|].
        constructor; [done|]. apply IH.
      * constructor; [done|]. constructor; [by intros ? [= <-]|]. constructor.
Qed.

(** The bound on the rounds does not matter once it is large enough: a run
    of the loop that ends is the same under any larger bound. *)
Lemma poll_fuel_mono w fuel fuel' operation s :
  out (run (poll w fuel operation) s) ≠ OutOfFuel →
  fuel ≤ fuel' →
  run (poll w fuel' operation) s = run (poll w fuel operation) s.
Proof.
  revert fuel' operation s.
  induction fuel as [|fuel IH]; intros fuel' operation s Hout Hle.
  - destruct (done operation) eqn:Hdone.
    + by rewrite !poll_done.
    + by rewrite poll_out_of_fuel in Hout.
  - destruct (done operation) eqn:Hdone.
    + by rewrite !poll_done.
    + destruct fuel' as [|fuel']; [lia|].
      rewrite !poll_step by done. rewrite poll_step in Hout by done.
      destruct (operations_get w (polls s) operation); [|done].
      rewrite (IH fuel'); [done| |lia]. exact Hout.
Qed.

(** C1. The polling loop tests the flag first: on a completed operation it
    returns it at once, whatever its result and error, without sleeping or
    fetching.  On an operation that is not done, one round sleeps 10, fetches
    the operation again, prints a dot and goes on with what the fetch
    returned; a fetch that raises ends the loop with that exception.  The
    loop returns only completed operations and raises only what a fetch
    raised, and every fetch it makes is made with an operation seen not
    done: there is no other way out, so while every fetch returns an
    operation that is not done, no number of rounds suffices, each round
    sleeping 10 and making one fetch. *)
Theorem polling_loop_behaviour w :
  (∀ fuel operation s, done operation = true →
     run (poll w fuel operation) s
     = {| out := Ret operation; final := s; events := [] |})
  ∧ (∀ fuel operation s, done operation = false →
       run (poll w (S fuel) operation) s =
       match operations_get w (polls s) operation with
       | Returns operation' =>
           prepend [ESleep 10; EGet operation; EPrint MDot]
             (run (poll w fuel operation') (incr_polls s))
       | Raises e =>
           {| out := Exc e; final := incr_polls s;
              events := [ESleep 10; EGet operation] |}
       end)
  ∧ (∀ fuel operation s operation',
       out (run (poll w fuel operation) s) = Ret operation' →
       done operation' = true)
  ∧ (∀ fuel operation s e,
       out (run (poll w fuel operation) s) = Exc e →
       ∃ k operation', operations_get w k operation' = Raises e)
  ∧ (∀ fuel operation s,
       Forall (λ ev, ∀ op, ev = EGet op → done op = false)
         (events (run (poll w fuel operation) s)))
  ∧ ((∀ k operation1, ∃ operation2,
         operations_get w k operation1 = Returns operation2
         ∧ done operation2 = false) →
     ∀ fuel operation s, done operation = false →
       out (run (poll w fuel operation) s) = OutOfFuel
       ∧ filter (λ ev, is_sleep ev = true) (events (run (poll w fuel operation) s))
         = replicate fuel (ESleep 10)
       ∧ length (filter (λ ev, is_api_call ev = true)
                   (events (run (poll w fuel operation) s))) = fuel).
Proof.
  split_and!.
  - intros. by apply poll_done.
  - intros. by apply poll_step.
  - intros fuel operation s operation'. apply poll_ret_done.
  - intros fuel operation s e. apply poll_exc_fetch.
  - intros fuel operation s. apply poll_fetches_unfinished.
  - intros Hget fuel operation s Hdone. by apply poll_forever.
Qed.

Lemma polling_loop_behaviour_witness :
  (∀ fuel, out (run (poll stuck_world fuel pending) empty_store) = OutOfFuel)
  ∧ run (poll fair_world 5 finished) empty_store
    = {| out := Ret finished; final := empty_store; events := [] |}
  ∧ run (poll offline_world 5 pending) empty_store
    = {| out := Exc "ConnectionError"; final := {| fs := ∅; polls := 1 |};
         events := [ESleep 10; EGet pending] |}.
Proof.
  split_and!.
  - intros fuel.
    apply (polling_loop_behaviour stuck_world); [|reflexivity].
    intros k operation1. by exists pending.
  - by apply (polling_loop_behaviour fair_world).
  - destruct (polling_loop_behaviour offline_world) as (_ & Hstep & _).
    rewrite Hstep by reflexivity. reflexivity.
Defined.

(** C1, as first stated, fails: when the status fetch raises, the loop is
    left at the first round although no fetch ever returned a completed
    operation. *)
Lemma polling_ends_when_fetch_raises :
  ¬ polling_ends_only_on_completion offline_world pending empty_store.
Proof.
  intros Hclaim.
  specialize (Hclaim eq_refl).
  assert (out (run (poll offline_world 1 pending) empty_store) = OutOfFuel)
    as Hout.
  { apply Hclaim. intros k operation1 operation2. discriminate. }
  vm_compute in Hout. discriminate.
Qed.

(** Polling leaves the files alone. *)
Lemma poll_fs w fuel operation s :
  fs (final (run (poll w fuel operation) s)) = fs s.
Proof.
  revert operation s. induction fuel as [|fuel IH]; intros operation s.
  - destruct (done operation) eqn:Hdone.
    + by rewrite poll_done.
    + by rewrite poll_out_of_fuel.
  - destruct (done operation) eqn:Hdone.
    + by rewrite poll_done.
    + rewrite poll_step by done.
      destruct (operations_get w (polls s) operation); [|done].
      cbn [prepend final]. by rewrite IH.
Qed.

Lemma Forall_forall_ne (l : list event) :
  Forall (λ ev, ∀ e, ev ≠ EPrint (MApiFailed e)) l
  ↔ ∀ e, EPrint (MApiFailed e) ∉ l.
Proof. rewrite Forall_forall. split; intros H; [intros e Hin|intros ev Hin e ->]; by eapply H. Qed.

Lemma poll_no_submission w fuel operation s :
  filter (λ ev, is_submission ev = true) (events (run (poll w fuel operation) s))
  = [].
Proof.
  apply filter_all_false. intros ev Hev.
  pose proof (poll_events_shape w fuel operation s) as Hshape.
  rewrite Forall_forall in Hshape.
  destruct (Hshape ev Hev) as [Hsleep|[[op ->]| ->]]; [|done..].
  by destruct ev.
Qed.

Lemma poll_no_outer_handler_line w fuel operation s e :
  EPrint (MApiFailed e) ∉ events (run (poll w fuel operation) s).
Proof.
  intros Hin. pose proof (poll_events_shape w fuel operation s) as Hshape.
  rewrite Forall_forall in Hshape.
  by destruct (Hshape _ Hin) as [?|[[op ?]|?]].
Qed.

Ltac save_result_cases w operation :=
  rewrite save_result_run;
  unfold written_store, write_events, error_lines, download_events;
  let response := fresh "response" in
  let text := fresh "text" in
  let video0 := fresh "video0" in
  let rest := fresh "rest" in
  let err := fresh "err" in
  let content := fresh "content" in
  let type_name := fresh "type_name" in
  let save_err := fresh "save_err" in
  destruct (result operation) as [response|text];
    [ destruct (videos_of response) as [|video0 rest];
      [ destruct (error operation) as [err|]; [destruct (truthy err)|]
      | destruct (files_download w (video video0))
          as [[content|type_name]|save_err];
        [ destruct (write_result w (output_path w) content)
        |
        | destruct (is_exception save_err) ] ]
    | ].

Lemma save_result_events_kinds w operation s :
  Forall (λ ev, is_persister ev = true) (events (run (save_result w operation) s)).
Proof. save_result_cases w operation; by repeat constructor. Qed.

Lemma save_result_no_submission w operation s :
  filter (λ ev, is_submission ev = true) (events (run (save_result w operation) s))
  = [].
Proof.
  apply filter_all_false. intros ev Hev.
  pose proof (save_result_events_kinds w operation s) as Hkinds.
  rewrite Forall_forall in Hkinds. specialize (Hkinds ev Hev).
  by destruct ev.
Qed.

Lemma caught_events line (r : res unit) :
  events (caught line r)
  = events r ++ match out r with
                | Exc e => if is_exception e then [EPrint (line e)] else []
                | _ => []
                end.
Proof.
  unfold caught. destruct (out r) as [|e|]; rewrite ?(right_id_L [] (++)); try done.
  destruct (is_exception e); by rewrite ?(right_id_L [] (++)).
Qed.

Lemma caught_final line (r : res unit) : final (caught line r) = final r.
Proof.
  unfold caught. destruct (out r) as [|e|]; try done. by destruct (is_exception e).
Qed.

Lemma submit_poll_save_body_submissions w fuel reference_images s :
  filter (λ ev, is_submission ev = true)
    (events (submit_poll_save_body w fuel reference_images s))
  = [EGenerate (the_request reference_images)].
Proof.
  unfold submit_poll_save_body. cbn zeta.
  destruct (generate_videos w _) as [operation|e]; [|done].
  pose proof (poll_no_submission w fuel operation s) as Hpoll.
  destruct (out (run (poll w fuel operation) s)) as [operation'|e|];
    cbn [prepend events]; rewrite ?filter_app, ?Hpoll; [|done..].
  by rewrite save_result_no_submission.
Qed.

(** C7, as it holds.  An exception raised by the submission, or by a status
    fetch during polling, or by reading a result that does not have the
    expected shape, is caught by the outer handler, around the whole
    submit-poll-save sequence: its line is the last thing the run does, and
    the run returns.  An exception raised by the download is caught before
    that, by the handler around the download and the save: the run ends with
    the line of that handler, and the line of the outer handler is not
    printed.  Every time the files are as they were, and the request is
    submitted exactly once: nothing is retried. *)
Theorem api_failures_caught_by_nearest_handler w fuel reference_images s :
  let req := the_request reference_images in
  let r := run (submit_poll_save w fuel reference_images) s in
  (∀ text, generate_videos w req = Raises (Exception text) →
     out r = Ret tt ∧ final r = s
     ∧ events r = [EGenerate req; EPrint (MApiFailed text)])
  ∧ (∀ operation text,
       generate_videos w req = Returns operation →
       out (run (poll w fuel operation) s) = Exc (Exception text) →
       out r = Ret tt
       ∧ fs (final r) = fs s
       ∧ events r = [EGenerate req; EPrint MWaiting]
                    ++ events (run (poll w fuel operation) s)
                    ++ [EPrint (MApiFailed text)])
  ∧ (∀ operation operation' text,
       generate_videos w req = Returns operation →
       out (run (poll w fuel operation) s) = Ret operation' →
       result operation' = Unexpected text →
       out r = Ret tt
       ∧ fs (final r) = fs s
       ∧ events r = [EGenerate req; EPrint MWaiting]
                    ++ events (run (poll w fuel operation) s)
                    ++ [EPrint MComplete; EPrint (MApiFailed text)])
  ∧ (∀ operation operation' response video0 rest text,
       generate_videos w req = Returns operation →
       out (run (poll w fuel operation) s) = Ret operation' →
       result operation' = Some response →
       generated_videos response = Some (video0 :: rest) →
       files_download w (video video0) = Raises (Exception text) →
       out r = Ret tt
       ∧ fs (final r) = fs s
       ∧ events r = [EGenerate req; EPrint MWaiting]
                    ++ events (run (poll w fuel operation) s)
                    ++ [EPrint MComplete]
                    ++ download_events w video0
                    ++ [EPrint (MSaveFailed text)]
       ∧ ∀ e', EPrint (MApiFailed e') ∉ events r)
  ∧ length (filter (λ ev, is_submission ev = true) (events r)) = 1.
Proof.
  cbn zeta. rewrite submit_poll_save_run.
  pose proof (poll_fs w fuel) as Hpoll_fs.
  split_and!.
  - intros text Hsubmit. unfold submit_poll_save_body. cbn zeta.
    by rewrite Hsubmit.
  - intros operation text Hsubmit Hpoll. unfold submit_poll_save_body.
    cbn zeta. rewrite Hsubmit, Hpoll. unfold caught. cbn [out final events is_exception].
    split_and!; [done|apply Hpoll_fs|by rewrite <-!(assoc_L (++))].
  - intros operation operation' text Hsubmit Hpoll Hshape.
    unfold submit_poll_save_body. cbn zeta.
    rewrite Hsubmit, Hpoll, save_result_run, Hshape.
    unfold caught. cbn [prepend out final events is_exception].
    split_and!; [done|apply Hpoll_fs|].
    by rewrite (right_id_L [] (++)), <-!(assoc_L (++)).
  - intros operation operation' response video0 rest text
      Hsubmit Hpoll Hres Hvideos Hdownload.
    unfold submit_poll_save_body. cbn zeta.
    rewrite Hsubmit, Hpoll, save_result_run, Hres.
    rewrite (videos_of_result _ _ Hvideos), Hdownload.
    unfold caught. cbn [prepend out final events is_exception].
    split_and!; [done|apply Hpoll_fs| |].
    + by rewrite <-!(assoc_L (++)).
    + apply Forall_forall_ne.
      rewrite !Forall_app. split_and!; try by repeat constructor.
      apply Forall_forall_ne. intros e'. apply poll_no_outer_handler_line.
  - rewrite caught_events, filter_app, submit_poll_save_body_submissions.
    rewrite filter_bool_none_list; [done|].
    destruct (out _) as [|e|]; [constructor| |constructor].
    destruct (is_exception e); by repeat constructor.
Qed.

Lemma api_failures_caught_by_nearest_handler_witness :
  events (run (submit_poll_save refusing_world 3 []) empty_store)
  = [EGenerate (the_request []); EPrint (MApiFailed "PermissionDenied")]
  ∧ events (run (submit_poll_save offline_world 3 []) empty_store)
    = [EGenerate (the_request []); EPrint MWaiting;
       ESleep 10; EGet pending; EPrint (MApiFailed "ConnectionError")]
  ∧ events (run (submit_poll_save garbled_world 3 []) empty_store)
    = [EGenerate (the_request []); EPrint MWaiting;
       EPrint MComplete; EPrint (MApiFailed "AttributeError")]
  ∧ events (run (submit_poll_save broken_download_world 3 []) empty_store)
    = [EGenerate (the_request []); EPrint MWaiting; EPrint MComplete]
      ++ download_events broken_download_world clip
      ++ [EPrint (MSaveFailed "NotFound")].
Proof.
  split_and!.
  - destruct (api_failures_caught_by_nearest_handler
                refusing_world 3 [] empty_store) as (Hsubmit & _).
    by destruct (Hsubmit "PermissionDenied" eq_refl) as (_ & _ & ->).
  - destruct (api_failures_caught_by_nearest_handler
                offline_world 3 [] empty_store) as (_ & Hpoll & _).
    by destruct (Hpoll pending "ConnectionError" eq_refl eq_refl) as (_ & _ & ->).
  - destruct (api_failures_caught_by_nearest_handler
                garbled_world 3 [] empty_store) as (_ & _ & Hshape & _).
    by destruct (Hshape garbled garbled "AttributeError" eq_refl eq_refl eq_refl)
      as (_ & _ & ->).
  - destruct (api_failures_caught_by_nearest_handler
                broken_download_world 3 [] empty_store)
      as (_ & _ & _ & Hsave & _).
    by destruct (Hsave finished finished {| generated_videos := Some [clip] |}
                   clip [] "NotFound"
                   eq_refl eq_refl eq_refl eq_refl eq_refl) as (_ & _ & -> & _).
Defined.

(** C7, as first stated, fails: when the download raises, the run does not
    end with the line of the outer handler; the handler around the download
    and the save has caught the exception. *)
Lemma download_failure_not_at_outer_handler :
  ¬ api_failures_reach_outer_handler broken_download_world 3 archer_store.
Proof.
  intros Hclaim. specialize (Hclaim "NotFound").
  assert (List.last
            (events (run (create_gamebuddies_ad broken_download_world 3)
                       archer_store)) (EPrint MStart)
          = EPrint (MApiFailed "NotFound")) as Hlast.
  { apply Hclaim. right. exists (video clip). split; [|reflexivity].
    rewrite list_elem_of_In. vm_compute.
    repeat (first [left; reflexivity | right]). }
  vm_compute in Hlast. discriminate.
Qed.

(** ** End to end *)

(** When an avatar exists, the request is accepted, polling ends within the
    bound and the download gives bytes, the whole script returns and leaves
    exactly those bytes at [output_path]. *)
Lemma whole_run_saves_video
    w fuel s operation operation' response video0 rest content :
  existing_avatars w s ≠ [] →
  generate_videos w (the_request (loaded_references w s)) = Returns operation →
  out (run (poll w fuel operation) s) = Ret operation' →
  result operation' = Some response →
  generated_videos response = Some (video0 :: rest) →
  files_download w (video video0) = Returns (PyBytes content) →
  write_result w (output_path w) content = Written →
  let r := run (create_gamebuddies_ad w fuel) s in
  out r = Ret tt ∧ fs (final r) = <[output_path w := content]> (fs s).
Proof.
  intros Hvalid Hsubmit Hpoll Hres Hvideos Hdownload Hwrite. cbn zeta.
  rewrite create_gamebuddies_ad_run.
  destruct (existing_avatars w s) as [|p valid_avatars]; [done|].
  rewrite submit_poll_save_run. unfold submit_poll_save_body. cbn zeta.
  rewrite Hsubmit, Hpoll, save_result_run, Hres.
  rewrite (videos_of_result _ _ Hvideos), Hdownload.
  unfold caught, written_store. rewrite Hwrite.
  cbn [prepend out final events set_fs fs]. by rewrite poll_fs.
Qed.

(** ** Sample runs *)

Example paths_of_fair_world :
  avatar_files fair_world
  = [ "/srv/gamebuddies/server/public/avatars/premium/archer.png";
      "/srv/gamebuddies/server/public/avatars/premium/knight.png";
      "/srv/gamebuddies/server/public/avatars/premium/mage.png" ]
  ∧ output_path fair_world
    = "/srv/gamebuddies/server/public/gamebuddies_veo_ad.mp4".
Proof. split; reflexivity. Qed.

Example normpath_dots : Path.normpath "a/./b//../../../c/" = "../c".
Proof. reflexivity. Qed.

Example fair_run :
  let r := run (create_gamebuddies_ad fair_world 5) archer_store in
  out r = Ret tt
  ∧ fs (final r) !! output_path fair_world = Some mp4
  ∧ events r =
    [ EPrint MStart;
      EPrint (MAvatarNotFound
                "/srv/gamebuddies/server/public/avatars/premium/knight.png");
      EPrint (MAvatarNotFound
                "/srv/gamebuddies/server/public/avatars/premium/mage.png");
      EPrint (MFound 1);
      EPrint (MLoading "archer.png");
      EOpenRead "/srv/gamebuddies/server/public/avatars/premium/archer.png";
      EPrint MSending;
      EGenerate (the_request
                   [asset_reference [Byte.x89; Byte.x50; Byte.x4e; Byte.x47]]);
      EPrint MWaiting;
      ESleep 10; EGet pending; EPrint MDot;
      ESleep 10; EGet pending; EPrint MDot;
      EPrint MComplete ]
    ++ download_events fair_world clip
    ++ [ EPrint MDownloadBytes;
         EOpenWrite (output_path fair_world) mp4;
         EPrint MSaved ].
Proof. cbn zeta. split_and!; by vm_compute. Qed.

(** With too few rounds the run is cut off inside the loop. *)
Example stuck_run :
  out (run (create_gamebuddies_ad stuck_world 40) archer_store) = OutOfFuel.
Proof. by vm_compute. Qed.

(** An interruption while the script waits is no [Exception]: it passes the
    outer handler and ends the run. *)
Example interrupted_run :
  let r := run (create_gamebuddies_ad interrupted_world 5) archer_store in
  out r = Exc (BaseException "KeyboardInterrupt")
  ∧ List.last (events r) (EPrint MStart) = EGet pending.
Proof. cbn zeta. split; by vm_compute. Qed.

(** When the disk is full the run ends with the line of the handler around
    the download and the save, and leaves a file cut short. *)
Example full_disk_run :
  let r := run (create_gamebuddies_ad full_disk_world 5) archer_store in
  out r = Ret tt
  ∧ fs (final r) !! output_path full_disk_world = Some (take 3 mp4)
  ∧ List.last (events r) (EPrint MStart) = EPrint (MSaveFailed "OSError").
Proof. cbn zeta. split_and!; by vm_compute. Qed.

(** ** Further properties: the paths *)

Lemma basename_join a b :
  Path.split b = [b] → Path.basename (Path.join a b) = b.
Proof.
  intros Hb. unfold Path.basename.
  destruct (join_shape a b) as [->|[front ->]].
  - by rewrite Hb.
  - rewrite split_app_sep, Hb. apply last_last.
Qed.

(** X1. Wherever the script is installed and from whatever directory it is
    started, the three candidates are pairwise different paths, the file
    names printed when they are loaded are archer.png, knight.png and
    mage.png, and the output path is none of the candidates. *)
Theorem candidate_paths_distinct w :
  Path.basename <$> avatar_files w = ["archer.png"; "knight.png"; "mage.png"]
  ∧ NoDup (avatar_files w)
  ∧ output_path w ∉ avatar_files w.
Proof.
  assert (Path.basename <$> avatar_files w
          = ["archer.png"; "knight.png"; "mage.png"]) as Hnames.
  { unfold avatar_files. cbn [fmap list_fmap]. by rewrite !basename_join. }
  split_and!; [done| |].
  - apply (NoDup_fmap_1 Path.basename). rewrite Hnames.
    compute_done.
  - intros Hin. by apply (output_path_not_avatar w (output_path w)).
Qed.

(** ** Further properties: what a whole run is made of *)

Lemma filter_bool_none (P : event → bool) (l : list event) :
  Forall (λ ev, P ev = false) l → filter (λ ev, P ev = true) l = [].
Proof.
  intros Hl. apply filter_all_false. intros ev Hev.
  rewrite Forall_forall in Hl. by rewrite (Hl ev Hev).
Qed.

Lemma filter_bool_all (P : event → bool) (l : list event) :
  Forall (λ ev, P ev = true) l → filter (λ ev, P ev = true) l = l.
Proof.
  intros Hl. apply filter_all_true. by apply Forall_forall.
Qed.

Lemma load_events_forall (P : event → Prop) w s path :
  (∀ base, P (EPrint (MLoading base))) →
  (∀ p, P (EOpenRead p)) →
  (∀ e, P (EPrint (MLoadFailed e))) →
  Forall P (load_events w s path).
Proof.
  intros Hloading Hopen Hfailed. unfold load_events.
  destruct (read_result w s path); by repeat constructor.
Qed.

Lemma load_events_startup w s path :
  Forall (λ ev, is_startup ev = true) (load_events w s path).
Proof.
  unfold load_events. destruct (read_result w s path); by repeat constructor.
Qed.

Lemma startup_events_startup w s :
  Forall (λ ev, is_startup ev = true) (startup_events w s).
Proof.
  unfold startup_events, missing_warnings.
  constructor; [done|]. rewrite !Forall_app. split_and!.
  - apply Forall_fmap, Forall_true. done.
  - by repeat constructor.
  - apply Forall_bind, Forall_true. intros path. apply load_events_startup.
  - by repeat constructor.
Qed.

Lemma poll_events_late w fuel operation s :
  Forall (λ ev, is_startup ev = false) (events (run (poll w fuel operation) s)).
Proof.
  eapply Forall_impl; [apply poll_events_shape|].
  intros ev [Hsleep|[[op ->]| ->]]; [by destruct ev|done..].
Qed.

Lemma save_result_events_late w operation s :
  Forall (λ ev, is_startup ev = false) (events (run (save_result w operation) s)).
Proof.
  eapply Forall_impl; [apply save_result_events_kinds|].
  intros [[]| | | | | |]; cbn; congruence.
Qed.

Lemma submit_poll_save_body_late w fuel reference_images s :
  Forall (λ ev, is_startup ev = false)
    (events (submit_poll_save_body w fuel reference_images s)).
Proof.
  unfold submit_poll_save_body. cbn zeta.
  destruct (generate_videos w _) as [operation|e]; [|by repeat constructor].
  pose proof (poll_events_late w fuel operation s) as Hpoll.
  destruct (out (run (poll w fuel operation) s)) as [operation'|e|];
    cbn [prepend events]; rewrite ?Forall_app; split_and?;
    try done; try by repeat constructor.
  apply save_result_events_late.
Qed.

Lemma submit_poll_save_events_late w fuel reference_images s :
  Forall (λ ev, is_startup ev = false)
    (events (run (submit_poll_save w fuel reference_images) s)).
Proof.
  rewrite submit_poll_save_run, caught_events, Forall_app.
  split; [apply submit_poll_save_body_late|].
  destruct (out _) as [|e|]; [constructor| |constructor].
  destruct (is_exception e); by repeat constructor.
Qed.

(** The events of a whole run: the start-up part, then the rest, or the
    start line, the warnings and the early exit. *)
Lemma create_gamebuddies_ad_events w fuel s :
  (existing_avatars w s = []
   ∧ events (run (create_gamebuddies_ad w fuel) s)
     = EPrint MStart :: missing_warnings w s ++ [EPrint MNoAvatars])
  ∨ (existing_avatars w s ≠ []
     ∧ events (run (create_gamebuddies_ad w fuel) s)
       = startup_events w s
         ++ events (run (submit_poll_save w fuel (loaded_references w s)) s)).
Proof.
  rewrite create_gamebuddies_ad_run.
  destruct (existing_avatars w s) as [|p valid_avatars]; [by left|by right].
Qed.

Lemma missing_warnings_warning w s :
  Forall (λ ev, is_warning ev = true) (missing_warnings w s).
Proof. unfold missing_warnings. by apply Forall_fmap, Forall_true. Qed.

Lemma candidates_split w s :
  length (missing_warnings w s) + length (existing_avatars w s) = 3.
Proof.
  unfold missing_warnings, existing_avatars. rewrite length_fmap.
  pose proof (filter_app_complement (λ p, is_Some (fs s !! p)) (avatar_files w))
    as Hperm.
  apply Permutation_length in Hperm. rewrite length_app in Hperm.
  change (length (avatar_files w)) with 3 in Hperm. lia.
Qed.

Lemma startup_events_warnings w s :
  filter (λ ev, is_warning ev = true) (startup_events w s) = missing_warnings w s.
Proof.
  unfold startup_events. rewrite filter_cons_False by done.
  rewrite !filter_app.
  rewrite (filter_bool_all _ _ (missing_warnings_warning w s)).
  rewrite !filter_bool_none; [by rewrite !(right_id_L [] (++))|..].
  - by repeat constructor.
  - apply Forall_bind, Forall_true. intros path. by apply load_events_forall.
  - by repeat constructor.
Qed.

Lemma late_no_warning (l : list event) :
  Forall (λ ev, is_startup ev = false) l →
  filter (λ ev, is_warning ev = true) l = [].
Proof.
  intros Hl. apply filter_bool_none. eapply Forall_impl; [exact Hl|].
  intros [[]| | | | | |]; cbn; congruence.
Qed.

(** X2. In every run, each of the three candidates is accounted for exactly
    once: the warnings printed and the avatars found add up to three, and
    the line that reports the number found, when it is printed, gives that
    number, which is then between one and three. *)
Theorem every_candidate_accounted_for w fuel s :
  let r := run (create_gamebuddies_ad w fuel) s in
  length (filter (λ ev, is_warning ev = true) (events r))
  + length (existing_avatars w s) = 3
  ∧ ∀ n, EPrint (MFound n) ∈ events r →
      n = length (existing_avatars w s) ∧ 1 ≤ n ≤ 3.
Proof.
  cbn zeta. pose proof (candidates_split w s) as Hsplit.
  destruct (create_gamebuddies_ad_events w fuel s) as [[Hnone ->]|[Hsome ->]].
  - split.
    + rewrite filter_cons_False, filter_app by done.
      rewrite (filter_bool_all _ _ (missing_warnings_warning w s)).
      rewrite filter_bool_none by by repeat constructor.
      by rewrite (right_id_L [] (++)).
    + intros n. rewrite elem_of_cons, elem_of_app, elem_of_cons, elem_of_nil.
      unfold missing_warnings. rewrite list_elem_of_fmap.
      intros [?|[(p & ? & _)|[?|[]]]]; discriminate.
  - pose proof (submit_poll_save_events_late w fuel (loaded_references w s) s)
      as Hlate.
    split.
    + rewrite filter_app, startup_events_warnings, late_no_warning by done.
      by rewrite (right_id_L [] (++)).
    + intros n. rewrite elem_of_app. intros [Hin|Hin].
      * unfold startup_events in Hin.
        rewrite elem_of_cons, !elem_of_app, !elem_of_cons, !elem_of_nil in Hin.
        unfold missing_warnings in Hin.
        rewrite list_elem_of_fmap, list_elem_of_bind in Hin.
        destruct Hin as [?|[(p & ? & _)|[[[= ->]|[]]|[(p & Hin & _)|[?|[]]]]]];
          try discriminate.
        -- split; [done|].
           destruct (existing_avatars w s); [done|]. cbn [length] in *. lia.
        -- unfold load_events in Hin.
           rewrite elem_of_app, !elem_of_cons, elem_of_nil in Hin.
           destruct Hin as [[?|[?|[]]]|Hin]; try discriminate.
           destruct (read_result w s p);
             [by apply elem_of_nil in Hin|].
           apply list_elem_of_singleton in Hin. discriminate.
      * rewrite Forall_forall in Hlate. by specialize (Hlate _ Hin).
Qed.

Lemma load_events_reads w s (paths : list string) :
  filter (λ ev, is_read ev = true) (paths ≫= load_events w s)
  = EOpenRead <$> paths.
Proof.
  induction paths as [|path paths IH]; [done|].
  cbn [mbind list_bind fmap list_fmap]. rewrite filter_app, IH.
  unfold load_events. destruct (read_result w s path); reflexivity.
Qed.

Lemma startup_events_reads w s :
  filter (λ ev, is_read ev = true) (startup_events w s)
  = EOpenRead <$> existing_avatars w s.
Proof.
  unfold startup_events. rewrite filter_cons_False by done.
  rewrite !filter_app, load_events_reads.
  rewrite !filter_bool_none; [by rewrite (right_id_L [] (++))|..].
  - by repeat constructor.
  - by repeat constructor.
  - unfold missing_warnings. by apply Forall_fmap, Forall_true.
Qed.

Lemma late_no_read (l : list event) :
  Forall (λ ev, is_startup ev = false) l →
  filter (λ ev, is_read ev = true) l = [].
Proof.
  intros Hl. apply filter_bool_none. eapply Forall_impl; [exact Hl|].
  intros [[]| | | | | |]; cbn; congruence.
Qed.

(** X3. In every run, the files opened for reading are exactly the
    candidates that exist, each opened once, in the order of the candidate
    list: a missing candidate is never opened, and neither is any file that
    is not one of the three candidates. *)
Theorem only_existing_candidates_opened w fuel s :
  let r := run (create_gamebuddies_ad w fuel) s in
  filter (λ ev, is_read ev = true) (events r)
  = EOpenRead <$> existing_avatars w s
  ∧ ∀ p, EOpenRead p ∈ events r → p ∈ avatar_files w ∧ is_Some (fs s !! p).
Proof.
  cbn zeta.
  assert (filter (λ ev, is_read ev = true)
            (events (run (create_gamebuddies_ad w fuel) s))
          = EOpenRead <$> existing_avatars w s) as Hreads.
  { destruct (create_gamebuddies_ad_events w fuel s) as [[Hnone ->]|[Hsome ->]].
    - rewrite Hnone, filter_cons_False, filter_app by done.
      rewrite !filter_bool_none; [done|by repeat constructor|].
      unfold missing_warnings. by apply Forall_fmap, Forall_true.
    - rewrite filter_app, startup_events_reads, late_no_read.
      + by rewrite (right_id_L [] (++)).
      + apply submit_poll_save_events_late. }
  split; [done|]. intros p Hin.
  assert (EOpenRead p ∈ EOpenRead <$> existing_avatars w s) as Hp.
  { rewrite <-Hreads. by apply list_elem_of_filter. }
  apply list_elem_of_fmap in Hp as (p' & [= <-] & Hp).
  apply list_elem_of_filter in Hp as [Hexists Hp]. done.
Qed.

Lemma submit_poll_save_submissions w fuel reference_images s :
  filter (λ ev, is_submission ev = true)
    (events (run (submit_poll_save w fuel reference_images) s))
  = [EGenerate (the_request reference_images)].
Proof.
  rewrite submit_poll_save_run, caught_events, filter_app.
  rewrite submit_poll_save_body_submissions, filter_bool_none; [done|].
  destruct (out _) as [|e|]; [constructor| |constructor].
  destruct (is_exception e); by repeat constructor.
Qed.

Lemma startup_no_submission (l : list event) :
  Forall (λ ev, is_startup ev = true) l →
  filter (λ ev, is_submission ev = true) l = [].
Proof.
  intros Hl. apply filter_bool_none. eapply Forall_impl; [exact Hl|].
  intros [[]| | | | | |]; cbn; congruence.
Qed.


Lemma create_gamebuddies_ad_submissions w fuel s :
  filter (λ ev, is_submission ev = true)
    (events (run (create_gamebuddies_ad w fuel) s))
  = match existing_avatars w s with
    | [] => []
    | _ :: _ =>
        [EGenerate
           (the_request
              (asset_reference <$> omap (read_bytes w s) (existing_avatars w s)))]
    end.
Proof.
  destruct (create_gamebuddies_ad_events w fuel s) as [[Hnone ->]|[Hsome ->]].
  - rewrite Hnone. apply filter_bool_none.
    constructor; [done|]. rewrite Forall_app. split; [|by repeat constructor].
    unfold missing_warnings. by apply Forall_fmap, Forall_true.
  - rewrite filter_app, startup_no_submission, submit_poll_save_submissions
      by apply startup_events_startup.
    unfold loaded_references, loaded_image. rewrite omap_fmap_option.
    by destruct (existing_avatars w s).
Qed.


Lemma load_events_failures w s (paths : list string) :
  filter (λ ev, is_load_failure ev = true) (paths ≫= load_events w s)
  = omap (load_failure_line w s) paths.
Proof.
  induction paths as [|path paths IH]; [done|].
  cbn [mbind list_bind omap list_omap]. rewrite filter_app, IH.
  unfold load_events, load_failure_line.
  destruct (read_result w s path); reflexivity.
Qed.

Lemma read_or_failed w s (paths : list string) :
  length (omap (read_bytes w s) paths)
  + length (omap (load_failure_line w s) paths) = length paths.
Proof.
  induction paths as [|path paths IH]; [done|].
  cbn [omap list_omap length]. unfold read_bytes at 1, load_failure_line at 1.
  destruct (read_result w s path); cbn [length]; lia.
Qed.

Lemma late_no_load_failure (l : list event) :
  Forall (λ ev, is_startup ev = false) l →
  filter (λ ev, is_load_failure ev = true) l = [].
Proof.
  intros Hl. apply filter_bool_none. eapply Forall_impl; [exact Hl|].
  intros [[]| | | | | |]; cbn; congruence.
Qed.

Lemma create_gamebuddies_ad_load_failures w fuel s :
  filter (λ ev, is_load_failure ev = true)
    (events (run (create_gamebuddies_ad w fuel) s))
  = omap (load_failure_line w s) (existing_avatars w s).
Proof.
  destruct (create_gamebuddies_ad_events w fuel s) as [[Hnone ->]|[Hsome ->]].
  - rewrite Hnone. apply filter_bool_none.
    constructor; [done|]. rewrite Forall_app. split; [|by repeat constructor].
    unfold missing_warnings. by apply Forall_fmap, Forall_true.
  - rewrite filter_app, (late_no_load_failure (events _))
      by apply submit_poll_save_events_late.
    rewrite (right_id_L [] (++)). unfold startup_events.
    rewrite filter_cons_False by done.
    rewrite !filter_app, load_events_failures.
    rewrite !filter_bool_none; [by rewrite (right_id_L [] (++))|..].
    + by repeat constructor.
    + by repeat constructor.
    + unfold missing_warnings. by apply Forall_fmap, Forall_true.
Qed.

(** X5. In every run, the lines that report a failed load are those of the
    existing candidates whose read raises, in candidate order, each with the
    exception of that read; so every existing candidate gives either an
    image for the request or one failure line, never both and never
    neither. *)
Theorem every_existing_avatar_loaded_or_reported w fuel s :
  let r := run (create_gamebuddies_ad w fuel) s in
  filter (λ ev, is_load_failure ev = true) (events r)
  = omap (load_failure_line w s) (existing_avatars w s)
  ∧ length (omap (read_bytes w s) (existing_avatars w s))
    + length (filter (λ ev, is_load_failure ev = true) (events r))
    = length (existing_avatars w s).
Proof.
  cbn zeta. rewrite create_gamebuddies_ad_load_failures.
  split; [done|]. apply read_or_failed.
Qed.

(** ** Further properties: how a run ends and what it calls *)

Lemma caught_out line (r : res unit) :
  out (caught line r)
  = match out r with
    | Exc e => if is_exception e then Ret tt else Exc e
    | o => o
    end.
Proof.
  unfold caught. destruct (out r) as [|e|] eqn:Hout; try done.
  by destruct (is_exception e).
Qed.

(** X6. No [Exception] escapes the script.  Whatever the reads, the write
    and the service do, a run returns normally, or is still inside the
    polling loop when the bound on its rounds is used up, or ends with an
    exception that is not an [Exception], which no handler of the script
    catches; and it is cut off inside the loop only when the request was
    accepted and the loop itself did not end within the bound. *)
Theorem no_exception_escapes w fuel s :
  let r := run (create_gamebuddies_ad w fuel) s in
  (∀ e, out r = Exc e → is_exception e = false)
  ∧ (out r = OutOfFuel →
       ∃ operation,
         generate_videos w (the_request (loaded_references w s))
         = Returns operation
         ∧ out (run (poll w fuel operation) s) = OutOfFuel).
Proof.
  cbn zeta. rewrite create_gamebuddies_ad_run.
  destruct (existing_avatars w s) as [|p valid_avatars]; [by split|].
  cbn [prepend out]. rewrite submit_poll_save_run, caught_out. split.
  - intros e. destruct (out (submit_poll_save_body _ _ _ _)) as [|e'|]; [done| |done].
    destruct (is_exception e') eqn:Hclass; [done|]. by intros [= <-].
  - unfold submit_poll_save_body. cbn zeta.
    destruct (generate_videos w _) as [operation|e].
    2: { cbn [out]. by destruct (is_exception e). }
    destruct (out (run (poll w fuel operation) s)) as [operation'|e|] eqn:Hpoll;
      cbn [prepend out].
    + pose proof (save_result_fuel w operation'
                    (final (run (poll w fuel operation) s))) as Hfuel.
      destruct (out (run (save_result w operation') _)) as [|e|]; [done| |done].
      by destruct (is_exception e).
    + by destruct (is_exception e).
    + intros _. by exists operation.
Qed.

Lemma poll_rounds w fuel operation s :
  ∃ handles,
    Forall (λ op, done op = false) handles
    ∧ length handles ≤ fuel
    ∧ polls (final (run (poll w fuel operation) s)) = polls s + length handles
    ∧ match out (run (poll w fuel operation) s) with
      | Exc _ =>
          events (run (poll w fuel operation) s) ++ [EPrint MDot]
          = handles ≫= round_events
      | _ => events (run (poll w fuel operation) s) = handles ≫= round_events
      end.
Proof.
  revert operation s. induction fuel as [|fuel IH]; intros operation s.
  - exists []. destruct (done operation) eqn:Hdone.
    + rewrite poll_done by done. cbn. split_and!; [done|lia|lia|done].
    + rewrite poll_out_of_fuel by done. cbn. split_and!; [done|lia|lia|done].
  - destruct (done operation) eqn:Hdone.
    + exists []. rewrite poll_done by done. cbn. split_and!; [done|lia|lia|done].
    + rewrite poll_step by done.
      destruct (operations_get w (polls s) operation) as [operation'|e].
      * destruct (IH operation' (incr_polls s))
          as (handles & Hhandles & Hlen & Hpolls & Hevents).
        exists (operation :: handles). cbn [prepend out final events].
        split_and!.
        -- by constructor.
        -- cbn [length]. lia.
        -- rewrite Hpolls. cbn [incr_polls polls length]. lia.
        -- cbn [mbind list_bind]. fold (round_events operation).
           destruct (out (run (poll w fuel operation') (incr_polls s)));
             by rewrite <-Hevents, <-?(assoc_L (++)).
      * exists [operation]. cbn [out final events incr_polls polls length].
        split_and!; [by repeat constructor|lia|lia|done].
Qed.

Lemma round_events_sleeps (handles : list Operation) :
  filter (λ ev, is_sleep ev = true) (handles ≫= round_events)
  = replicate (length handles) (ESleep 10).
Proof.
  induction handles as [|op handles IH]; [done|].
  cbn [mbind list_bind length replicate]. rewrite filter_app, IH. reflexivity.
Qed.

Lemma round_events_fetches (handles : list Operation) :
  filter (λ ev, is_fetch ev = true) (handles ≫= round_events)
  = EGet <$> handles.
Proof.
  induction handles as [|op handles IH]; [done|].
  cbn [mbind list_bind fmap list_fmap]. rewrite filter_app, IH. reflexivity.
Qed.

(** X7. The polling loop never fetches without sleeping first.  Whatever
    the service answers, the events of the loop are whole rounds, one for
    each operation that was seen not done: sleep 10, fetch with that
    operation, print a dot; only when a fetch raises does the last round
    lack its dot.  So the loop sleeps 10 exactly once per fetch, the files
    are left alone, and the number of fetches made is the number of
    rounds. *)
Theorem polling_sleeps_before_every_fetch w fuel operation s :
  let r := run (poll w fuel operation) s in
  ∃ handles,
    Forall (λ op, done op = false) handles
    ∧ match out r with
      | Exc _ => events r ++ [EPrint MDot] = handles ≫= round_events
      | _ => events r = handles ≫= round_events
      end
    ∧ filter (λ ev, is_sleep ev = true) (events r)
      = replicate (length handles) (ESleep 10)
    ∧ filter (λ ev, is_fetch ev = true) (events r) = EGet <$> handles
    ∧ polls (final r) = polls s + length handles
    ∧ fs (final r) = fs s.
Proof.
  cbn zeta.
  destruct (poll_rounds w fuel operation s)
    as (handles & Hhandles & _ & Hpolls & Hevents).
  exists handles. split_and!; [done..| | |done|apply poll_fs].
  - rewrite <-round_events_sleeps.
    destruct (out (run (poll w fuel operation) s)); rewrite <-Hevents; [done| |done].
    rewrite filter_app, (filter_bool_none _ [EPrint MDot])
      by by repeat constructor.
    by rewrite (right_id_L [] (++)).
  - rewrite <-round_events_fetches.
    destruct (out (run (poll w fuel operation) s)); rewrite <-Hevents; [done| |done].
    rewrite filter_app, (filter_bool_none _ [EPrint MDot])
      by by repeat constructor.
    by rewrite (right_id_L [] (++)).
Qed.

Lemma last_cons_default {A} (x d : A) (l : list A) :
  List.last (x :: l) d = List.last l x.
Proof.
  revert x d. induction l as [|y l IH]; intros x d; [done|].
  change (List.last (x :: y :: l) d) with (List.last (y :: l) d).
  rewrite IH. symmetry. apply IH.
Qed.

Lemma poll_through_run w fuel operation answers s :
  polls_through w (polls s) operation answers →
  done (List.last answers operation) = true →
  length answers ≤ fuel →
  run (poll w fuel operation) s
  = {| out := Ret (List.last answers operation);
       final := {| fs := fs s; polls := polls s + length answers |};
       events := removelast (operation :: answers) ≫= round_events |}.
Proof.
  revert fuel operation s.
  induction answers as [|operation' answers IH];
    intros fuel operation s Hthrough Hdone Hfuel.
  - cbn in Hdone. rewrite poll_done by done. destruct s as [f k]. cbn.
    do 2 f_equal. lia.
  - destruct Hthrough as (Hpending & Hget & Hthrough).
    destruct fuel as [|fuel]; [cbn in Hfuel; lia|].
    rewrite poll_step, Hget by done.
    rewrite last_cons_default in Hdone.
    rewrite (IH fuel operation' (incr_polls s)); [|done..|cbn in Hfuel; lia].
    rewrite last_cons_default. unfold prepend. cbn [out final events].
    f_equal. cbn [incr_polls fs polls length]. f_equal. lia.
Qed.

(** X8. The polling loop returns the first completed operation it sees.
    If the operation at hand and the answers of the service to the fetches
    that follow are all not done until one answer is, then (the bound on the
    rounds being at least the number of those fetches) the loop returns that
    answer, having made one full round per operation seen not done and
    nothing else, so it has slept 10 once per fetch; an operation that is
    done from the start is returned at once. *)
Theorem polling_returns_first_completed w fuel operation answers s :
  polls_through w (polls s) operation answers →
  done (List.last answers operation) = true →
  length answers ≤ fuel →
  let r := run (poll w fuel operation) s in
  r = {| out := Ret (List.last answers operation);
         final := {| fs := fs s; polls := polls s + length answers |};
         events := removelast (operation :: answers) ≫= round_events |}
  ∧ filter (λ ev, is_sleep ev = true) (events r)
    = replicate (length answers) (ESleep 10)
  ∧ filter (λ ev, is_fetch ev = true) (events r)
    = EGet <$> removelast (operation :: answers).
Proof.
  intros Hthrough Hdone Hfuel. cbn zeta.
  rewrite (poll_through_run _ _ _ _ _ Hthrough Hdone Hfuel). cbn [events].
  split_and!; [done| |apply round_events_fetches].
  rewrite round_events_sleeps. f_equal.
  clear. revert operation.
  induction answers as [|operation' answers IH]; intros operation; [done|].
  change (removelast (operation :: operation' :: answers))
    with (operation :: removelast (operation' :: answers)).
  cbn [length]. by rewrite IH.
Qed.

Lemma polling_returns_first_completed_witness :
  let r := run (poll fair_world 5 pending) empty_store in
  r = {| out := Ret finished;
         final := {| fs := ∅; polls := 2 |};
         events := [ESleep 10; EGet pending; EPrint MDot;
                    ESleep 10; EGet pending; EPrint MDot] |}
  ∧ filter (λ ev, is_sleep ev = true) (events r) = [ESleep 10; ESleep 10]
  ∧ filter (λ ev, is_fetch ev = true) (events r) = [EGet pending; EGet pending].
Proof.
  apply (polling_returns_first_completed fair_world 5 pending
           [pending; finished] empty_store).
  - cbn. split_and!; reflexivity.
  - reflexivity.
  - cbn. lia.
Defined.

Lemma round_events_api_calls (handles : list Operation) :
  filter (λ ev, is_api_call ev = true) (handles ≫= round_events)
  = EGet <$> handles.
Proof.
  induction handles as [|op handles IH]; [done|].
  cbn [mbind list_bind fmap list_fmap]. rewrite filter_app, IH. reflexivity.
Qed.

Lemma poll_api_calls w fuel operation s :
  ∃ handles,
    Forall (λ op, done op = false) handles
    ∧ filter (λ ev, is_api_call ev = true)
        (events (run (poll w fuel operation) s))
      = EGet <$> handles.
Proof.
  destruct (poll_rounds w fuel operation s)
    as (handles & Hhandles & _ & _ & Hevents).
  exists handles. split; [done|]. rewrite <-round_events_api_calls.
  destruct (out (run (poll w fuel operation) s)); rewrite <-Hevents; [done| |done].
  rewrite filter_app, (filter_bool_none _ [EPrint MDot]) by by repeat constructor.
  by rewrite (right_id_L [] (++)).
Qed.

Lemma save_result_api_calls w operation s :
  filter (λ ev, is_api_call ev = true) (events (run (save_result w operation) s))
  = match result operation with
    | Value response =>
        match videos_of response with
        | video0 :: _ => [EDownload (video video0)]
        | [] => []
        end
    | Unexpected _ => []
    end.
Proof. save_result_cases w operation; reflexivity. Qed.

Lemma videos_of_cons response video0 rest :
  videos_of response = video0 :: rest →
  ∃ r, response = Some r ∧ generated_videos r = Some (video0 :: rest).
Proof.
  destruct response as [r|]; [|done]. unfold videos_of.
  destruct (generated_videos r) as [videos|] eqn:Hvideos; [|done].
  cbn. intros ->. by exists r.
Qed.

Lemma startup_no_api_calls w s :
  filter (λ ev, is_api_call ev = true) (startup_events w s) = [].
Proof. apply filter_bool_none, startup_events_no_api. Qed.

Lemma handler_line_no_api_call line (o : outcome unit) :
  filter (λ ev, is_api_call ev = true)
    match o with
    | Exc e => if is_exception e then [EPrint (line e)] else []
    | _ => []
    end = [].
Proof. destruct o as [|e|]; try done. by destruct (is_exception e). Qed.

(** X9. The calls to the service follow one order in every run: nothing
    at all when no candidate exists; otherwise the submission first, then
    status fetches, each made with an operation that was seen not done, and
    last at most one download.  A download is only made when the polling
    loop, started with the operation the submission returned, has come back
    with a completed operation, and it asks for the first video of the
    result of that operation. *)
Theorem api_calls_in_order w fuel s :
  let r := run (create_gamebuddies_ad w fuel) s in
  (existing_avatars w s = []
   ∧ filter (λ ev, is_api_call ev = true) (events r) = [])
  ∨ ∃ handles download,
      filter (λ ev, is_api_call ev = true) (events r)
      = EGenerate (the_request (loaded_references w s))
        :: (EGet <$> handles) ++ download
      ∧ Forall (λ op, done op = false) handles
      ∧ (download = []
         ∨ ∃ operation operation' response video0 rest,
             generate_videos w (the_request (loaded_references w s))
             = Returns operation
             ∧ out (run (poll w fuel operation) s) = Ret operation'
             ∧ done operation' = true
             ∧ result operation' = Some response
             ∧ generated_videos response = Some (video0 :: rest)
             ∧ download = [EDownload (video video0)]).
Proof.
  cbn zeta.
  destruct (create_gamebuddies_ad_events w fuel s) as [[Hnone ->]|[Hsome ->]].
  { left. split; [done|]. apply filter_bool_none.
    constructor; [done|]. rewrite Forall_app. split; [|by repeat constructor].
    unfold missing_warnings. by apply Forall_fmap, Forall_true. }
  right. rewrite filter_app, startup_no_api_calls, submit_poll_save_run.
  rewrite caught_events, filter_app, handler_line_no_api_call.
  rewrite (right_id_L [] (++)). cbn [app].
  unfold submit_poll_save_body. cbn zeta.
  destruct (generate_videos w _) as [operation|e] eqn:Hsubmit.
  2: { exists [], []. split_and!; [done|done|by left]. }
  destruct (poll_api_calls w fuel operation s) as (handles & Hhandles & Hcalls).
  destruct (out (run (poll w fuel operation) s)) as [operation'|e|] eqn:Hpoll;
    cbn [prepend events].
  - pose proof (poll_ret_done _ _ _ _ _ Hpoll) as Hdone.
    rewrite !filter_app, Hcalls, save_result_api_calls.
    rewrite filter_cons_True, filter_cons_False, filter_nil by done.
    rewrite (filter_bool_none _ [EPrint MComplete]) by by repeat constructor.
    rewrite (right_id_L [] (++)). cbn [app].
    destruct (result operation') as [response|text] eqn:Hres.
    2: { exists handles, []. split_and!; [done|done|by left]. }
    destruct (videos_of response) as [|video0 rest] eqn:Hvideos.
    + exists handles, []. split_and!; [done|done|by left].
    + exists handles, [EDownload (video video0)]. split_and!; [done|done|].
      right. apply videos_of_cons in Hvideos as (r & -> & Hvideos).
      by exists operation, operation', r, video0, rest.
  - exists handles, [].
    rewrite !filter_app, Hcalls.
    rewrite filter_cons_True, filter_cons_False, filter_nil by done.
    split_and!; [by rewrite (right_id_L [] (++))|done|by left].
  - exists handles, [].
    rewrite !filter_app, Hcalls.
    rewrite filter_cons_True, filter_cons_False, filter_nil by done.
    split_and!; [by rewrite (right_id_L [] (++))|done|by left].
Qed.

(** ** Further properties: what the log of a run tells *)

Lemma quiet_no_write (l : list event) :
  Forall (λ ev, is_write ev = false ∧ ev ≠ EPrint MSaved) l →
  filter (λ ev, is_write ev = true) l = [] ∧ EPrint MSaved ∉ l.
Proof.
  intros Hl. split.
  - apply filter_bool_none. eapply Forall_impl; [exact Hl|]. by intros ev [? _].
  - intros Hin. rewrite Forall_forall in Hl. by destruct (Hl _ Hin) as [_ ?].
Qed.

Lemma startup_events_quiet w s :
  Forall (λ ev, is_write ev = false ∧ ev ≠ EPrint MSaved) (startup_events w s).
Proof.
  eapply Forall_impl; [apply startup_events_startup|].
  intros [[]| | | | | |]; cbn; (split; congruence).
Qed.

Lemma poll_events_quiet w fuel operation s :
  Forall (λ ev, is_write ev = false ∧ ev ≠ EPrint MSaved)
    (events (run (poll w fuel operation) s)).
Proof.
  eapply Forall_impl; [apply poll_events_shape|].
  intros ev [Hsleep|[[op ->]| ->]]; [by destruct ev|done..].
Qed.

Lemma download_events_quiet w video0 :
  Forall (λ ev, is_write ev = false ∧ ev ≠ EPrint MSaved)
    (download_events w video0).
Proof. by repeat constructor. Qed.

Lemma write_report_quiet w before after evs :
  Forall (λ ev, is_write ev = false ∧ ev ≠ EPrint MSaved) evs →
  after = before → write_report w before after evs.
Proof.
  intros Hquiet ->. right. left.
  destruct (quiet_no_write _ Hquiet) as [Hwrites Hsaved]. done.
Qed.

Lemma write_report_frame w before after pre evs post :
  Forall (λ ev, is_write ev = false ∧ ev ≠ EPrint MSaved) pre →
  Forall (λ ev, is_write ev = false ∧ ev ≠ EPrint MSaved) post →
  write_report w before after evs →
  write_report w before after (pre ++ evs ++ post).
Proof.
  intros Hpre Hpost Hevs.
  destruct (quiet_no_write _ Hpre) as [Hpre_writes Hpre_saved].
  destruct (quiet_no_write _ Hpost) as [Hpost_writes Hpost_saved].
  assert (filter (λ ev, is_write ev = true) (pre ++ evs ++ post)
          = filter (λ ev, is_write ev = true) evs) as Hwrites.
  { by rewrite !filter_app, Hpre_writes, Hpost_writes, (right_id_L [] (++)). }
  assert (EPrint MSaved ∈ pre ++ evs ++ post ↔ EPrint MSaved ∈ evs) as Hsaved.
  { rewrite !elem_of_app. tauto. }
  unfold write_report. rewrite Hwrites, Hsaved.
  destruct Hevs as [Hyes|[Hno|(Hno & content & text & Hw & Hline & Hfile)]];
    [by left|by right; left|].
  right. right. split; [done|]. exists content, text.
  split_and!; [done| |done]. rewrite !elem_of_app. auto.
Qed.

Lemma save_result_report w operation s :
  write_report w (fs s) (fs (final (run (save_result w operation) s)))
    (events (run (save_result w operation) s)).
Proof.
  rewrite save_result_run.
  destruct (result operation) as [response|text].
  2: { by apply write_report_quiet. }
  destruct (videos_of response) as [|video0 rest].
  { apply write_report_quiet; [|done]. unfold error_lines. cbn [events].
    destruct (error operation) as [err|]; [|by repeat constructor].
    destruct (truthy err); by repeat constructor. }
  pose proof (download_events_quiet w video0) as Hdownload.
  destruct (files_download w (video video0)) as [[content|type_name]|save_err].
  - cbn [out final events]. unfold written_store, write_events.
    rewrite <-(right_id_L [] (++) [_; _; _]). apply write_report_frame;
      [done|constructor|].
    destruct (write_result w (output_path w) content) as [|text|text written]
      eqn:Hwrite; cbn [set_fs fs].
    + left. split; [rewrite !elem_of_cons; auto|]. by exists content.
    + right. right. split.
      { rewrite !elem_of_cons, elem_of_nil. intros Hin. destruct_or?; done. }
      exists content, text. split_and!; [done| |by left].
      rewrite !elem_of_cons. auto.
    + right. right. split.
      { rewrite !elem_of_cons, elem_of_nil. intros Hin. destruct_or?; done. }
      exists content, text. split_and!; [done| |right; by exists written].
      rewrite !elem_of_cons. auto.
  - apply write_report_quiet; [|done]. cbn [events].
    rewrite Forall_app. split; [done|by repeat constructor].
  - destruct (is_exception save_err);
      (apply write_report_quiet; [|done]); cbn [events]; [|done].
    rewrite Forall_app. split; [done|by repeat constructor].
Qed.

Lemma submit_poll_save_report w fuel reference_images s :
  write_report w (fs s)
    (fs (final (run (submit_poll_save w fuel reference_images) s)))
    (events (run (submit_poll_save w fuel reference_images) s)).
Proof.
  rewrite submit_poll_save_run, caught_events, caught_final.
  rewrite <-(left_id_L [] (++) (events _ ++ _)).
  apply write_report_frame; [constructor| |].
  { destruct (out _) as [|e|]; [constructor| |constructor].
    destruct (is_exception e); by repeat constructor. }
  unfold submit_poll_save_body. cbn zeta.
  destruct (generate_videos w _) as [operation|e].
  2: { apply write_report_quiet; [by repeat constructor|done]. }
  pose proof (poll_events_quiet w fuel operation s) as Hpoll.
  pose proof (poll_fs w fuel operation s) as Hfs.
  destruct (out (run (poll w fuel operation) s)) as [operation'|e|];
    cbn [prepend out final events].
  - rewrite <-Hfs, <-(right_id_L [] (++) (events (run (save_result _ _) _))).
    apply write_report_frame; [|constructor|apply save_result_report].
    rewrite !Forall_app. split_and!; [by repeat constructor|done|by repeat constructor].
  - apply write_report_quiet; [|done].
    rewrite !Forall_app. split; [by repeat constructor|done].
  - apply write_report_quiet; [|done].
    rewrite !Forall_app. split; [by repeat constructor|done].
Qed.

(** X10. The line that says the video was saved is printed exactly when
    the file was written in full.  In every run one of three things holds.
    That line is in the log: the run opened one file for writing,
    [output_path], the write did not raise, and the file there holds the
    written bytes while nothing else changed.  Or the line is not in the log
    and the run opened no file for writing: every file is as it was.  Or the
    line is not in the log and the one write the run attempted, to
    [output_path], raised: the line of the handler is in the log, and the
    files are as they were when opening failed, while the file at
    [output_path] holds the bytes written so far when writing failed. *)
Theorem saved_line_iff_file_written w fuel s :
  let r := run (create_gamebuddies_ad w fuel) s in
  ((EPrint MSaved ∈ events r)
   ∧ (∃ content,
        filter (λ ev, is_write ev = true) (events r)
        = [EOpenWrite (output_path w) content]
        ∧ write_result w (output_path w) content = Written
        ∧ fs (final r) = <[output_path w := content]> (fs s)))
  ∨ ((EPrint MSaved ∉ events r)
     ∧ filter (λ ev, is_write ev = true) (events r) = []
     ∧ fs (final r) = fs s)
  ∨ ((EPrint MSaved ∉ events r)
     ∧ (∃ content (text : string),
          filter (λ ev, is_write ev = true) (events r)
          = [EOpenWrite (output_path w) content]
          ∧ (EPrint (MSaveFailed text) ∈ events r)
          ∧ (write_result w (output_path w) content = OpenFailed text
             ∧ fs (final r) = fs s
             ∨ ∃ written,
                 write_result w (output_path w) content
                 = WriteFailed text written
                 ∧ fs (final r)
                   = <[output_path w := take written content]> (fs s)))).
Proof.
  cbn zeta.
  change (write_report w (fs s)
            (fs (final (run (create_gamebuddies_ad w fuel) s)))
            (events (run (create_gamebuddies_ad w fuel) s))).
  rewrite create_gamebuddies_ad_run.
  destruct (existing_avatars w s) as [|p valid_avatars] eqn:Hvalid.
  { apply write_report_quiet; [|done]. cbn [events].
    constructor; [done|]. rewrite Forall_app.
    split; [|by repeat constructor].
    unfold missing_warnings. by apply Forall_fmap, Forall_true. }
  cbn [prepend out final events].
  rewrite <-(right_id_L [] (++) (events _)).
  apply write_report_frame;
    [apply startup_events_quiet|constructor|apply submit_poll_save_report].
Qed.

Lemma poll_events_kinds w fuel operation s ev :
  ev ∈ events (run (poll w fuel operation) s) →
  is_sleep ev = true ∨ (∃ op, ev = EGet op) ∨ ev = EPrint MDot.
Proof.
  pose proof (poll_events_shape w fuel operation s) as Hshape.
  rewrite Forall_forall in Hshape. apply Hshape.
Qed.

Lemma startup_events_kinds w s ev :
  ev ∈ startup_events w s → is_startup ev = true.
Proof.
  pose proof (startup_events_startup w s) as Hshape.
  rewrite Forall_forall in Hshape. apply Hshape.
Qed.

Lemma load_events_failure_line w s (paths : list string) e :
  EPrint (MLoadFailed e) ∈ paths ≫= load_events w s →
  ∃ pre post p,
    paths ≫= load_events w s
    = pre ++ [EOpenRead p; EPrint (MLoadFailed e)] ++ post
    ∧ p ∈ paths
    ∧ read_result w s p = Raises e.
Proof.
  induction paths as [|path paths IH].
  { cbn. by intros ?%elem_of_nil. }
  rewrite bind_cons, elem_of_app. intros [Hin|Hin].
  - exists [EPrint (MLoading (Path.basename path))], (paths ≫= load_events w s),
      path.
    revert Hin. unfold load_events.
    destruct (read_result w s path) as [image_bytes|e0];
      rewrite elem_of_app, !elem_of_cons, ?elem_of_nil;
      intros Hin; destruct_or?; try done.
    simplify_eq. split_and!; [done|by left|done].
  - destruct (IH Hin) as (pre & post & p & -> & Hp & Hread).
    exists (load_events w s path ++ pre), post, p.
    split_and!; [by rewrite <-(assoc_L (++))|by right|done].
Qed.

(** The loop is left with an exception right after the status fetch that
    raised it. *)
Lemma poll_exc_last w fuel operation s e :
  out (run (poll w fuel operation) s) = Exc e →
  ∃ pre operation',
    events (run (poll w fuel operation) s) = pre ++ [EGet operation']
    ∧ operations_get w
        (polls s + length (filter (λ ev, is_fetch ev = true) pre)) operation'
      = Raises e.
Proof.
  revert operation s. induction fuel as [|fuel IH]; intros operation s.
  - destruct (done operation) eqn:Hdone.
    + by rewrite poll_done.
    + by rewrite poll_out_of_fuel.
  - destruct (done operation) eqn:Hdone.
    + by rewrite poll_done.
    + rewrite poll_step by done.
      destruct (operations_get w (polls s) operation) as [operation'|e']
        eqn:Hget.
      * cbn [prepend out events]. intros Hout.
        destruct (IH operation' (incr_polls s) Hout)
          as (pre & op & -> & Hraise).
        exists ([ESleep 10; EGet operation; EPrint MDot] ++ pre), op.
        split; [by rewrite <-(assoc_L (++))|].
        rewrite filter_app, filter_cons_False, filter_cons_True,
          filter_cons_False, filter_nil by done.
        rewrite length_app. cbn [length polls incr_polls] in *.
        by replace (polls s + (1 + length (filter (λ ev, is_fetch ev = true) pre)))
          with (S (polls s) + length (filter (λ ev, is_fetch ev = true) pre))
          by lia.
      * cbn [out events]. intros [= ->]. exists [ESleep 10], operation.
        split; [done|].
        rewrite filter_cons_False, filter_nil by done. cbn [length].
        by rewrite Nat.add_0_r.
Qed.

Lemma save_result_no_outer_line w operation s e :
  EPrint (MApiFailed e) ∉ events (run (save_result w operation) s).
Proof.
  intros Hin. pose proof (save_result_events_kinds w operation s) as Hkinds.
  rewrite Forall_forall in Hkinds. by specialize (Hkinds _ Hin).
Qed.

Lemma api_failure_report_prefix w fuel s req e pre evs :
  filter (λ ev, is_fetch ev = true) pre = [] →
  api_failure_report w fuel s req e evs →
  api_failure_report w fuel s req e (pre ++ evs).
Proof.
  intros Hpre [Hclass Hevs]. split; [done|].
  destruct Hevs as [(p & -> & Hraise)|[(p & operation & -> & Hraise)
    |(p & operation & operation' & text & -> & Hrest)]].
  - left. exists (pre ++ p). by rewrite <-(assoc_L (++)).
  - right. left. exists (pre ++ p), operation.
    split; [by rewrite <-(assoc_L (++))|]. by rewrite filter_app, Hpre.
  - right. right. exists (pre ++ p), operation, operation', text.
    split; [by rewrite <-(assoc_L (++))|done].
Qed.

Lemma save_failure_report_prefix w e pre evs :
  save_failure_report w e evs → save_failure_report w e (pre ++ evs).
Proof.
  intros [Hclass Hevs]. split; [done|].
  destruct Hevs as [(p & file & -> & Hraise)
    |(p & content & text & -> & Hrest)].
  - left. exists (pre ++ p), file. by rewrite <-(assoc_L (++)).
  - right. exists (pre ++ p), content, text. by rewrite <-(assoc_L (++)).
Qed.

Lemma save_result_failure_line w operation s e :
  EPrint (MSaveFailed e) ∈ events (run (save_result w operation) s) →
  out (run (save_result w operation) s) = Ret tt
  ∧ save_failure_report w e (events (run (save_result w operation) s)).
Proof.
  rewrite save_result_run.
  destruct (result operation) as [response|text]; [|by intros ?%elem_of_nil].
  destruct (videos_of response) as [|video0 rest].
  { unfold error_lines.
    destruct (error operation) as [err|]; [destruct (truthy err)|];
      cbn [events]; rewrite ?elem_of_cons, ?elem_of_nil;
      intros Hin; destruct_or?; done. }
  unfold download_events, write_events.
  destruct (files_download w (video video0)) as [[content|type_name]|save_err]
    eqn:Hdownload.
  - destruct (write_result w (output_path w) content) as [|text|text written]
      eqn:Hwrite; cbn [out events];
      rewrite elem_of_app, !elem_of_cons, elem_of_nil;
      intros Hin; destruct_or?; try done; simplify_eq.
    + split; [done|]. split; [done|]. right.
      eexists [_; _; _; _; _; _; _], content, text.
      split_and!; [reflexivity|done|by left].
    + split; [done|]. split; [done|]. right.
      eexists [_; _; _; _; _; _; _], content, text.
      split_and!; [reflexivity|done|right; by exists written].
  - cbn [events]. rewrite elem_of_app, !elem_of_cons, elem_of_nil.
    intros Hin; destruct_or?; done.
  - destruct (is_exception save_err) eqn:Hclass; cbn [out events];
      rewrite ?elem_of_app, !elem_of_cons, elem_of_nil;
      intros Hin; destruct_or?; try done; simplify_eq.
    split; [done|]. split; [done|]. left.
    by eexists [_; _; _; _; _], (video video0).
Qed.

Lemma submit_poll_save_save_failure w fuel reference_images s e :
  EPrint (MSaveFailed e)
    ∈ events (run (submit_poll_save w fuel reference_images) s) →
  save_failure_report w e
    (events (run (submit_poll_save w fuel reference_images) s)).
Proof.
  rewrite submit_poll_save_run, caught_events.
  unfold submit_poll_save_body. cbn zeta.
  destruct (generate_videos w _) as [operation|e0].
  2: { cbn [out events]. destruct (is_exception e0);
         rewrite ?elem_of_app, !elem_of_cons, !elem_of_nil;
         intros Hin; destruct_or?; done. }
  destruct (out (run (poll w fuel operation) s)) as [operation'|e0|] eqn:Hpoll;
    cbn [prepend out events].
  - intros Hin.
    assert (EPrint (MSaveFailed e)
              ∈ events (run (save_result w operation')
                          (final (run (poll w fuel operation) s)))) as Hline.
    { revert Hin.
      rewrite !elem_of_app, !elem_of_cons, !elem_of_nil.
      intros Hin; destruct_or?; try done.
      - apply poll_events_kinds in Hin as [?|[[? ?]|?]]; done.
      - destruct (out (run (save_result _ _) _)) as [|e0|];
          [by apply elem_of_nil in Hin| |by apply elem_of_nil in Hin].
        destruct (is_exception e0); [|by apply elem_of_nil in Hin].
        by apply list_elem_of_singleton in Hin. }
    apply save_result_failure_line in Hline as [-> Hreport].
    rewrite (right_id_L [] (++)). by apply save_failure_report_prefix.
  - destruct (is_exception e0);
      rewrite !elem_of_app, !elem_of_cons, !elem_of_nil;
      intros Hin; destruct_or?; try done;
      apply poll_events_kinds in Hin as [?|[[? ?]|?]]; done.
  - rewrite !elem_of_app, !elem_of_cons, !elem_of_nil;
      intros Hin; destruct_or?; try done;
      apply poll_events_kinds in Hin as [?|[[? ?]|?]]; done.
Qed.

Lemma submit_poll_save_api_failure w fuel reference_images s e :
  EPrint (MApiFailed e)
    ∈ events (run (submit_poll_save w fuel reference_images) s) →
  api_failure_report w fuel s (the_request reference_images) e
    (events (run (submit_poll_save w fuel reference_images) s)).
Proof.
  rewrite submit_poll_save_run, caught_events.
  unfold submit_poll_save_body. cbn zeta.
  destruct (generate_videos w _) as [operation|e0] eqn:Hsubmit.
  2: { cbn [out events]. destruct (is_exception e0) eqn:Hclass;
         rewrite ?elem_of_app, !elem_of_cons, !elem_of_nil;
         intros Hin; destruct_or?; try done.
       simplify_eq. split; [done|]. left. by exists []. }
  destruct (out (run (poll w fuel operation) s)) as [operation'|e0|] eqn:Hpoll;
    cbn [prepend out events].
  - pose proof (save_result_no_outer_line w operation'
                  (final (run (poll w fuel operation) s)) e) as Hsave.
    destruct (out (run (save_result w operation') _)) as [|e0|] eqn:Hout.
    + rewrite !elem_of_app, !elem_of_cons, !elem_of_nil.
      intros Hin; destruct_or?; try done.
      by apply poll_no_outer_handler_line in Hin.
    + destruct (save_result_out _ _ _ _ Hout)
        as [[Hshape Hclass]|[Hclass _]]; rewrite Hclass.
      * destruct e0 as [text|text]; [|done].
        assert (events (run (save_result w operation')
                               (final (run (poll w fuel operation) s))) = [])
          as ->.
        { by rewrite save_result_run, Hshape. }
        rewrite !elem_of_app, !elem_of_cons, !elem_of_nil.
        intros Hin; destruct_or?; try done;
          [by apply poll_no_outer_handler_line in Hin|].
        simplify_eq. split; [done|]. right. right.
        exists ([EGenerate (the_request reference_images); EPrint MWaiting]
                ++ events (run (poll w fuel operation) s)),
          operation, operation', text.
        split_and!; [|done..].
        by rewrite <-!(assoc_L (++)).
      * rewrite !elem_of_app, !elem_of_cons, !elem_of_nil.
        intros Hin; destruct_or?; try done.
        by apply poll_no_outer_handler_line in Hin.
    + rewrite !elem_of_app, !elem_of_cons, !elem_of_nil.
      intros Hin; destruct_or?; try done.
      by apply poll_no_outer_handler_line in Hin.
  - destruct (is_exception e0) eqn:Hclass;
      rewrite !elem_of_app, !elem_of_cons, !elem_of_nil;
      intros Hin; destruct_or?; try done;
      try (by apply poll_no_outer_handler_line in Hin).
    simplify_eq. split; [done|]. right. left.
    destruct (poll_exc_last _ _ _ _ _ Hpoll) as (pre & op & -> & Hraise).
    exists ([EGenerate (the_request reference_images); EPrint MWaiting] ++ pre),
      op.
    split; [by rewrite <-!(assoc_L (++))|].
    by rewrite filter_app, filter_cons_False, filter_cons_False, filter_nil
      by done.
  - rewrite !elem_of_app, !elem_of_cons, !elem_of_nil.
    intros Hin; destruct_or?; try done.
    by apply poll_no_outer_handler_line in Hin.
Qed.

Lemma startup_events_no_fetch w s :
  filter (λ ev, is_fetch ev = true) (startup_events w s) = [].
Proof.
  apply filter_bool_none. eapply Forall_impl; [apply startup_events_startup|].
  intros [[]| | | | | |]; cbn; congruence.
Qed.

(** X11. No failure line is a false alarm, and each stands right after the
    call that failed.  In every run, a line that reports a failed load
    carries the exception that the read, just before it, of an existing
    candidate raised.  The line of the outer handler is the last of the run
    and carries the exception raised by the call just before it: the
    submission of the request; or a status fetch, asked as the service is at
    that fetch of the run; or it stands right after the line that says the
    generation is complete, and carries what reading the result of the
    operation that the polling loop returned raised.  The line of the
    handler around the download and the save is the last of the run and
    carries the exception raised by the call just before it: the download,
    or the write to [output_path], whose opening or writing failed.  Every
    exception so reported is an [Exception]. *)
Theorem failure_lines_report_real_failures w fuel s :
  let r := run (create_gamebuddies_ad w fuel) s in
  let req := the_request (loaded_references w s) in
  (∀ e, EPrint (MLoadFailed e) ∈ events r →
     is_exception e = true
     ∧ ∃ pre post p,
         events r = pre ++ [EOpenRead p; EPrint (MLoadFailed e)] ++ post
         ∧ p ∈ existing_avatars w s
         ∧ read_result w s p = Raises e)
  ∧ (∀ e, EPrint (MApiFailed e) ∈ events r →
       is_exception e = true
       ∧ ((∃ pre,
             events r = pre ++ [EGenerate req; EPrint (MApiFailed e)]
             ∧ generate_videos w req = Raises e)
          ∨ (∃ pre operation,
               events r = pre ++ [EGet operation; EPrint (MApiFailed e)]
               ∧ operations_get w
                   (polls s + length (filter (λ ev, is_fetch ev = true) pre))
                   operation
                 = Raises e)
          ∨ (∃ pre operation operation' (text : string),
               events r = pre ++ [EPrint MComplete; EPrint (MApiFailed e)]
               ∧ generate_videos w req = Returns operation
               ∧ out (run (poll w fuel operation) s) = Ret operation'
               ∧ result operation' = Unexpected text
               ∧ e = Exception text)))
  ∧ (∀ e, EPrint (MSaveFailed e) ∈ events r →
       is_exception e = true
       ∧ ((∃ pre file,
             events r = pre ++ [EDownload file; EPrint (MSaveFailed e)]
             ∧ files_download w file = Raises e)
          ∨ (∃ pre content (text : string),
               events r = pre ++ [EOpenWrite (output_path w) content;
                                  EPrint (MSaveFailed e)]
               ∧ e = Exception text
               ∧ (write_result w (output_path w) content = OpenFailed text
                  ∨ ∃ written,
                      write_result w (output_path w) content
                      = WriteFailed text written)))).
Proof.
  cbn zeta.
  destruct (create_gamebuddies_ad_events w fuel s) as [[Hnone ->]|[Hsome ->]].
  { unfold missing_warnings.
    split_and!; intros e; rewrite elem_of_cons, elem_of_app, list_elem_of_fmap,
      elem_of_cons, elem_of_nil; intros Hin; destruct_or?; try done;
      by destruct Hin as (? & ? & _). }
  split_and!; intros e; rewrite elem_of_app; intros [Hin|Hin].
  - assert (EPrint (MLoadFailed e)
              ∈ existing_avatars w s ≫= load_events w s) as Hload.
    { revert Hin. unfold startup_events, missing_warnings.
      rewrite elem_of_cons, !elem_of_app, list_elem_of_fmap, !elem_of_cons,
        !elem_of_nil.
      intros Hin; destruct_or?; try done. by destruct Hin as (? & ? & _). }
    destruct (load_events_failure_line _ _ _ _ Hload)
      as (pre & post & p & Hevents & Hp & Hread).
    split; [by apply read_result_exception in Hread|].
    exists (EPrint MStart :: missing_warnings w s
            ++ [EPrint (MFound (length (existing_avatars w s)))] ++ pre),
      (post ++ [EPrint MSending]
       ++ events (run (submit_poll_save w fuel (loaded_references w s)) s)), p.
    split_and!; [|done..]. unfold startup_events. rewrite Hevents.
    repeat (progress (rewrite <-?(assoc_L (++)); cbn [app])). reflexivity.
  - pose proof (submit_poll_save_events_late w fuel (loaded_references w s) s)
      as Hlate.
    rewrite Forall_forall in Hlate. by specialize (Hlate _ Hin).
  - by apply startup_events_kinds in Hin.
  - apply (api_failure_report_prefix w fuel s);
      [apply startup_events_no_fetch|].
    by apply submit_poll_save_api_failure.
  - by apply startup_events_kinds in Hin.
  - apply (save_failure_report_prefix w e).
    by apply submit_poll_save_save_failure.
Qed.

(** ** Further properties: running the script again, and the happy path *)

Lemma filter_ext_in {A} (P Q : A → Prop)
    `{!∀ x, Decision (P x)} `{!∀ x, Decision (Q x)} (l : list A) :
  (∀ x, x ∈ l → (P x ↔ Q x)) → filter P l = filter Q l.
Proof.
  induction l as [|x l IH]; intros Hl; [done|].
  assert (filter P l = filter Q l) as Hrest.
  { apply IH. intros y Hy. apply Hl. by right. }
  destruct (decide (P x)) as [HP|HP].
  - rewrite !filter_cons_True; [by rewrite Hrest| |done].
    apply Hl; [by left|done].
  - rewrite !filter_cons_False; [done| |done].
    intros HQ. apply HP, Hl; [by left|done].
Qed.

Lemma omap_ext_in {A B} (f g : A → option B) (l : list A) :
  (∀ x, x ∈ l → f x = g x) → omap f l = omap g l.
Proof.
  induction l as [|x l IH]; intros Hl; [done|].
  cbn. rewrite (Hl x) by left. rewrite IH; [done|].
  intros y Hy. apply Hl. by right.
Qed.

Lemma avatars_untouched w fuel s p :
  p ∈ avatar_files w →
  fs (final (run (create_gamebuddies_ad w fuel) s)) !! p = fs s !! p.
Proof.
  intros Hp. destruct (writes_only_create_gamebuddies_ad w fuel s) as [_ Hfs].
  by apply Hfs, output_path_not_avatar.
Qed.

(** X12. A run does not disturb its own inputs.  After any run the same
    candidates exist and their reads give what they gave before, so the video
    the run may have written is never taken for an avatar, and running the
    script again submits the very same request, or again none. *)
Theorem rerun_submits_same_request w fuel fuel' s :
  let r := run (create_gamebuddies_ad w fuel) s in
  existing_avatars w (final r) = existing_avatars w s
  ∧ omap (read_bytes w (final r)) (existing_avatars w (final r))
    = omap (read_bytes w s) (existing_avatars w s)
  ∧ filter (λ ev, is_submission ev = true)
      (events (run (create_gamebuddies_ad w fuel') (final r)))
    = filter (λ ev, is_submission ev = true) (events r).
Proof.
  cbn zeta.
  assert (existing_avatars w (final (run (create_gamebuddies_ad w fuel) s))
          = existing_avatars w s) as Hexisting.
  { unfold existing_avatars. apply filter_ext_in. intros p Hp.
    by rewrite (avatars_untouched w fuel s p Hp). }
  assert (omap (read_bytes w (final (run (create_gamebuddies_ad w fuel) s)))
            (existing_avatars w s)
          = omap (read_bytes w s) (existing_avatars w s)) as Hread.
  { apply omap_ext_in. intros p Hp.
    apply list_elem_of_filter in Hp as [_ Hp].
    unfold read_bytes, read_result.
    by rewrite (avatars_untouched w fuel s p Hp). }
  split_and!; [done|by rewrite Hexisting|].
  by rewrite !create_gamebuddies_ad_submissions, Hexisting, Hread.
Qed.

(** X13. The happy path, end to end.  When some candidate exists, the
    request is accepted, the job is reported done after finitely many status
    fetches (at most as many as the bound on the rounds), its result holds a
    video, the download of the first one gives bytes and neither opening
    [output_path] nor writing those bytes to it raises, the script returns
    normally; the file at [output_path] then holds exactly those bytes, all
    other files are as they were, and the run is the start-up lines, the
    submission, one round of sleep, fetch and dot per operation seen not
    done, and the download and save of the video, ending with the line that
    says it was saved. *)
Theorem accepted_request_ends_with_saved_video
    w fuel s operation answers response video0 rest content :
  existing_avatars w s ≠ [] →
  generate_videos w (the_request (loaded_references w s)) = Returns operation →
  polls_through w (polls s) operation answers →
  done (List.last answers operation) = true →
  length answers ≤ fuel →
  result (List.last answers operation) = Some response →
  generated_videos response = Some (video0 :: rest) →
  files_download w (video video0) = Returns (PyBytes content) →
  write_result w (output_path w) content = Written →
  let r := run (create_gamebuddies_ad w fuel) s in
  out r = Ret tt
  ∧ fs (final r) = <[output_path w := content]> (fs s)
  ∧ events r
    = startup_events w s
      ++ [EGenerate (the_request (loaded_references w s)); EPrint MWaiting]
      ++ (removelast (operation :: answers) ≫= round_events)
      ++ [EPrint MComplete]
      ++ download_events w video0
      ++ [EPrint MDownloadBytes; EOpenWrite (output_path w) content;
          EPrint MSaved].
Proof.
  intros Hvalid Hsubmit Hthrough Hdone Hfuel Hresult Hvideos Hdownload Hwrite.
  cbn zeta. rewrite create_gamebuddies_ad_run.
  destruct (existing_avatars w s) as [|p valid_avatars]; [done|].
  rewrite submit_poll_save_run. unfold caught, submit_poll_save_body. cbn zeta.
  rewrite Hsubmit, (poll_through_run _ _ _ _ _ Hthrough Hdone Hfuel).
  cbn [out final events].
  rewrite save_result_run, Hresult, (videos_of_result _ _ Hvideos), Hdownload.
  unfold written_store, write_events. rewrite Hwrite.
  cbn [prepend out final events set_fs fs].
  split_and!; [done..|]. by rewrite <-!(assoc_L (++)).
Qed.

Lemma accepted_request_ends_with_saved_video_witness :
  let r := run (create_gamebuddies_ad fair_world 5) archer_store in
  out r = Ret tt
  ∧ fs (final r) = <[output_path fair_world := mp4]> (fs archer_store)
  ∧ events r
    = startup_events fair_world archer_store
      ++ [EGenerate (the_request (loaded_references fair_world archer_store));
          EPrint MWaiting]
      ++ (removelast [pending; pending; finished] ≫= round_events)
      ++ [EPrint MComplete]
      ++ download_events fair_world clip
      ++ [EPrint MDownloadBytes; EOpenWrite (output_path fair_world) mp4;
          EPrint MSaved].
Proof.
  apply (accepted_request_ends_with_saved_video fair_world 5 archer_store
           pending [pending; finished]
           {| generated_videos := Some [clip] |} clip [] mp4).
  - by vm_compute.
  - reflexivity.
  - cbn. split_and!; reflexivity.
  - reflexivity.
  - cbn. lia.
  - reflexivity.
  - reflexivity.
  - reflexivity.
  - reflexivity.
Defined.

Lemma startup_no_sleep (l : list event) :
  Forall (λ ev, is_startup ev = true) l →
  filter (λ ev, is_sleep ev = true) l = [].
Proof.
  intros Hl. apply filter_bool_none. eapply Forall_impl; [exact Hl|].
  intros [[]| | | | | |]; cbn; congruence.
Qed.

(** X14. A job that never completes keeps the script waiting for ever.
    When some candidate exists, the request is accepted with an operation
    that is not done and every status fetch answers with an operation that
    is not done, then under every bound on the rounds the run is still
    polling when the bound is reached: it has slept once per round, it has
    not printed that the generation is complete, it has downloaded nothing
    and every file is as it was. *)
Theorem unfinished_job_keeps_script_waiting w fuel s operation :
  existing_avatars w s ≠ [] →
  generate_videos w (the_request (loaded_references w s)) = Returns operation →
  done operation = false →
  (∀ k operation1, ∃ operation2,
      operations_get w k operation1 = Returns operation2
      ∧ done operation2 = false) →
  let r := run (create_gamebuddies_ad w fuel) s in
  out r = OutOfFuel
  ∧ filter (λ ev, is_sleep ev = true) (events r) = replicate fuel (ESleep 10)
  ∧ (EPrint MComplete ∉ events r)
  ∧ (∀ file, EDownload file ∉ events r)
  ∧ fs (final r) = fs s.
Proof.
  intros Hvalid Hsubmit Hpending Hget. cbn zeta.
  rewrite create_gamebuddies_ad_run.
  destruct (existing_avatars w s) as [|p valid_avatars]; [done|].
  rewrite submit_poll_save_run. unfold caught, submit_poll_save_body. cbn zeta.
  rewrite Hsubmit.
  destruct (poll_forever w fuel operation s Hget Hpending)
    as (Hout & Hsleeps & _).
  rewrite Hout. cbn [prepend out final events].
  split_and!; [done| | | |apply poll_fs].
  - rewrite filter_app, startup_no_sleep by apply startup_events_startup.
    cbn [app]. by rewrite filter_cons_False, filter_cons_False by done.
  - rewrite !elem_of_app, !elem_of_cons, elem_of_nil. intros Hin.
    destruct_or?; try done.
    + by apply startup_events_kinds in Hin.
    + by apply poll_events_kinds in Hin as [?|[[? ?]|?]].
  - intros file. rewrite !elem_of_app, !elem_of_cons, elem_of_nil. intros Hin.
    destruct_or?; try done.
    + by apply startup_events_kinds in Hin.
    + by apply poll_events_kinds in Hin as [?|[[? ?]|?]].
Qed.

Lemma unfinished_job_keeps_script_waiting_witness :
  let r := run (create_gamebuddies_ad stuck_world 360) archer_store in
  out r = OutOfFuel
  ∧ filter (λ ev, is_sleep ev = true) (events r) = replicate 360 (ESleep 10)
  ∧ (EPrint MComplete ∉ events r)
  ∧ (∀ file, EDownload file ∉ events r)
  ∧ fs (final r) = fs archer_store.
Proof.
  apply (unfinished_job_keeps_script_waiting
           stuck_world 360 archer_store pending).
  - by vm_compute.
  - reflexivity.
  - reflexivity.
  - intros k operation1. by exists pending.
Defined.
